(** * Task management dashboard (src/App.tsx): the task store, its form,
      the grouping by priority and the mirror in localStorage.

    The component [App] keeps five pieces of React state and four event
    handlers.  The handlers are embedded as functions on the record of the
    five state cells; the browser services the component calls
    (localStorage, JSON, Date.now) are modelled next to them. *)

From Stdlib Require Import Ascii String ZArith.
From stdpp Require Import base decidable option list strings pretty gmap fin_maps.

Open Scope list_scope.

(** ** Data model (App.tsx, lines 16-22) *)

(** [priority: "Low" | "Medium" | "High"] *)
Inductive Priority := Low | Medium | High.

#[global] Instance Priority_eq_dec : EqDecision Priority.
Proof. solve_decision. Defined.

#[global] Instance Priority_countable : Countable Priority.
Proof.
  refine (inj_countable'
    (λ p, match p with Low => 0 | Medium => 1 | High => 2 end)
    (λ n, match n with 0 => Low | 1 => Medium | _ => High end) _).
  by intros [].
Defined.

(** The string a priority is at run time. *)
Definition label (p : Priority) : string :=
  match p with Low => "Low" | Medium => "Medium" | High => "High" end.

Module Task.
(** [interface Task] *)
Record t := mk {
  id : string;
  name : string;
  priority : Priority;
  dueDate : string;
}.

#[global] Instance eq_dec : EqDecision t.
Proof. solve_decision. Defined.
End Task.

Abbreviation Task := Task.t.

(** The ids of a task list, in list order. *)
Definition ids (ts : list Task) : list string := Task.id <$> ts.

(** ** Component state (lines 52-60) *)

Record AppState := mkApp {
  tasks : list Task;
  taskName : string;
  priority : Priority;
  dueDate : string;
  editingTask : option Task;
}.

#[global] Instance AppState_eq_dec : EqDecision AppState.
Proof. solve_decision. Defined.

(** A state setter replaces one cell and keeps the others. *)
Definition setTasks (f : list Task → list Task) (s : AppState) : AppState :=
  mkApp (f (tasks s)) (taskName s) (priority s) (dueDate s) (editingTask s).
Definition setTaskName (v : string) (s : AppState) : AppState :=
  mkApp (tasks s) v (priority s) (dueDate s) (editingTask s).
Definition setPriority (v : Priority) (s : AppState) : AppState :=
  mkApp (tasks s) (taskName s) v (dueDate s) (editingTask s).
Definition setDueDate (v : string) (s : AppState) : AppState :=
  mkApp (tasks s) (taskName s) (priority s) v (editingTask s).
Definition setEditingTask (v : option Task) (s : AppState) : AppState :=
  mkApp (tasks s) (taskName s) (priority s) (dueDate s) v.

(** [!s] on a string: only the empty string is falsy. *)
Definition falsy (s : string) : bool := bool_decide (s = "").

(** ** Handlers *)

(** lines 67-72 *)
Definition resetForm (s : AppState) : AppState :=
  setEditingTask None (setDueDate "" (setPriority Medium (setTaskName "" s))).

(** The guard of line 75: [!taskName || !dueDate]. *)
Definition rejects (s : AppState) : bool :=
  falsy (taskName s) || falsy (dueDate s).

(** The task built at lines 77-82.  [now] is what [Date.now()] reads, a
    whole number of milliseconds; it is consulted only when no task is
    being edited.  [toString] of such a number is its decimal notation,
    which is [pretty] on [Z]. *)
Definition newTask (now : Z) (s : AppState) : Task :=
  Task.mk
    (match editingTask s with
     | Some e => Task.id e
     | None => pretty now
     end)
    (taskName s) (priority s) (dueDate s).

(** lines 74-91 *)
Definition addOrUpdateTask (now : Z) (s : AppState) : AppState :=
  if rejects s then s
  else
    let newTask := newTask now s in
    resetForm
      (setTasks
         (λ prevTasks,
            match editingTask s with
            | Some e =>
                (λ t, if bool_decide (Task.id t = Task.id e) then newTask else t)
                  <$> prevTasks
            | None => prevTasks ++ [newTask]
            end)
         s).

(** lines 93-95 *)
Definition deleteTask (id : string) (s : AppState) : AppState :=
  setTasks (λ _, filter (λ task, Task.id task ≠ id) (tasks s)) s.

(** lines 97-102 *)
Definition editTask (task : Task) (s : AppState) : AppState :=
  setDueDate (Task.dueDate task)
    (setPriority (Task.priority task)
       (setTaskName (Task.name task)
          (setEditingTask (Some task) s))).

(** ** Grouping (lines 104-112 and 180-205) *)

(** One turn of the [reduce] callback: create the bucket of the task's
    priority when it is missing, then push the task on it. *)
Definition group_step (acc : gmap Priority (list Task)) (task : Task)
  : gmap Priority (list Task) :=
  let p := Task.priority task in
  let acc := match acc !! p with Some _ => acc | None => <[p := []]> acc end in
  alter (λ bucket, bucket ++ [task]) p acc.

Definition groupedTasks (ts : list Task) : gmap Priority (list Task) :=
  foldl group_step ∅ ts.

Definition priorityOrder : list Priority := [High; Medium; Low].

(** What the list pane renders: for each level of [priorityOrder] whose
    bucket exists, a section with the level and the bucket's cards. *)
Definition sections (ts : list Task) : list (Priority * list Task) :=
  omap (λ priorityLevel, (priorityLevel,.) <$> groupedTasks ts !! priorityLevel)
       priorityOrder.

(** [!tasks.length], the empty-state message of lines 206-210. *)
Definition emptyState (ts : list Task) : bool := bool_decide (length ts = 0).

(** The tasks of one priority, in list order. *)
Definition bucket (p : Priority) (ts : list Task) : list Task :=
  filter (λ t, Task.priority t = p) ts.

(** ** JSON, as the browser provides it

    Strings are byte strings, read as well-formed UTF-8 text.  [JSON.parse]
    is a lexer (one pass over the bytes) followed by a shift-reduce pass
    over the tokens; both are structurally recursive, so [parse] is total
    and [None] stands for the [SyntaxError] it throws.  A number keeps its
    lexeme: no field of a task is numeric.  An object keeps its members as
    written.  A [\u] escape is stored as the UTF-8 bytes of its code point,
    two escapes that form a surrogate pair as those of the pair's code
    point. *)

Module JSON.

#[warnings="-register-all"] Inductive value :=
| Null
| Bool (b : bool)
| Num (lexeme : string)
| Str (s : string)
| Arr (elements : list value)
| Obj (members : list (string * value)).

Definition dquote : ascii := "034"%char.
Definition backslash : ascii := "\"%char.

Definition code (c : ascii) : N := N_of_ascii c.
Definition byte (n : N) : ascii := ascii_of_N n.
Definition is_char (c d : ascii) : bool := bool_decide (c = d).

(** *** Writing *)

Definition hex_char (n : N) : ascii :=
  if (n <? 10)%N then byte (48 + n) else byte (87 + n).

(** QuoteJSONString, one character of well-formed text.  (A lone
    surrogate, which it writes as an escape, is not well-formed text and
    is written here as its bytes.) *)
Definition escape_char (c : ascii) : string :=
  if is_char c dquote then String backslash (String dquote "")
  else if is_char c backslash then String backslash (String backslash "")
  else if is_char c "008" then "\b"
  else if is_char c "012" then "\f"
  else if is_char c "010" then "\n"
  else if is_char c "013" then "\r"
  else if is_char c "009" then "\t"
  else if (code c <? 32)%N then
    "\u00" +:+ String (hex_char (code c / 16)) (String (hex_char (code c mod 16)) "")
  else String c "".

Fixpoint escape (s : string) : string :=
  match s with
  | "" => ""
  | String c s' => escape_char c +:+ escape s'
  end.

Definition quote (s : string) : string :=
  String dquote (escape s +:+ String dquote "").

Fixpoint commas (items : list string) : string :=
  match items with
  | [] => ""
  | x :: xs => match xs with [] => x | _ => x +:+ "," +:+ commas xs end
  end.

(** SerializeJSONProperty without indentation. *)
Fixpoint write (v : value) : string :=
  match v with
  | Null => "null"
  | Bool true => "true"
  | Bool false => "false"
  | Num lexeme => lexeme
  | Str s => quote s
  | Arr elements => "[" +:+ commas (write <$> elements) +:+ "]"
  | Obj members =>
      "{" +:+ commas ((λ m, quote m.1 +:+ ":" +:+ write m.2) <$> members) +:+ "}"
  end.

(** *** Lexing *)

Inductive token :=
| TLBracket | TRBracket | TLBrace | TRBrace | TComma | TColon
| TStr (s : string)
| TNum (lexeme : string)
| TLit (v : value).

(** Where the lexer stands inside a number. *)
Inductive numphase :=
| NMinus | NZero | NInt | NDot | NFrac | NExp | NExpSign | NExpDigits.

Inductive lstate :=
| LStart
| LLit (expected : string) (v : value)
| LNum (ph : numphase) (lexeme : string)
| LStr (acc : string) (hi : option N)
| LEsc (acc : string) (hi : option N)
| LHex (acc : string) (hi : option N) (seen : nat) (cu : N).

Definition is_ws (c : ascii) : bool :=
  is_char c " " || is_char c "009" || is_char c "010" || is_char c "013".

Definition is_digit (c : ascii) : bool :=
  (48 <=? code c)%N && (code c <=? 57)%N.

Definition is_e (c : ascii) : bool := is_char c "e" || is_char c "E".

Definition hex_digit (c : ascii) : option N :=
  let n := code c in
  if is_digit c then Some (n - 48)%N
  else if (97 <=? n)%N && (n <=? 102)%N then Some (n - 87)%N
  else if (65 <=? n)%N && (n <=? 70)%N then Some (n - 55)%N
  else None.

(** The UTF-8 bytes of a code point; a lone surrogate keeps the
    three-byte form. *)
Definition utf8 (cp : N) : string :=
  if (cp <? 0x80)%N then String (byte cp) ""
  else if (cp <? 0x800)%N then
    String (byte (0xC0 + cp / 0x40)) (String (byte (0x80 + cp mod 0x40)) "")
  else if (cp <? 0x10000)%N then
    String (byte (0xE0 + cp / 0x1000))
      (String (byte (0x80 + (cp / 0x40) mod 0x40))
         (String (byte (0x80 + cp mod 0x40)) ""))
  else
    String (byte (0xF0 + cp / 0x40000))
      (String (byte (0x80 + (cp / 0x1000) mod 0x40))
         (String (byte (0x80 + (cp / 0x40) mod 0x40))
            (String (byte (0x80 + cp mod 0x40)) ""))).

Definition is_high (cu : N) : bool := (0xD800 <=? cu)%N && (cu <=? 0xDBFF)%N.
Definition is_low (cu : N) : bool := (0xDC00 <=? cu)%N && (cu <=? 0xDFFF)%N.

(** A high surrogate read from an escape waits in [hi] for its low half;
    anything else that follows writes it out alone. *)
Definition flush (acc : string) (hi : option N) : string :=
  match hi with Some h => acc +:+ utf8 h | None => acc end.

Definition code_unit (acc : string) (hi : option N) (cu : N) : lstate :=
  match hi with
  | Some h =>
      if is_low cu then
        LStr (acc +:+ utf8 (0x10000 + (h - 0xD800) * 0x400 + (cu - 0xDC00))%N) None
      else if is_high cu then LStr (acc +:+ utf8 h) (Some cu)
      else LStr (acc +:+ utf8 h +:+ utf8 cu) None
  | None =>
      if is_high cu then LStr acc (Some cu) else LStr (acc +:+ utf8 cu) None
  end.

Definition unescape (c : ascii) : option ascii :=
  if is_char c dquote then Some dquote
  else if is_char c backslash then Some backslash
  else if is_char c "/" then Some "/"%char
  else if is_char c "b" then Some "008"%char
  else if is_char c "f" then Some "012"%char
  else if is_char c "n" then Some "010"%char
  else if is_char c "r" then Some "013"%char
  else if is_char c "t" then Some "009"%char
  else None.

(** [None]: the character does not continue the number. *)
Definition num_step (ph : numphase) (c : ascii) : option numphase :=
  match ph with
  | NMinus => if is_char c "0" then Some NZero else if is_digit c then Some NInt else None
  | NZero => if is_char c "." then Some NDot else if is_e c then Some NExp else None
  | NInt =>
      if is_digit c then Some NInt
      else if is_char c "." then Some NDot
      else if is_e c then Some NExp
      else None
  | NDot => if is_digit c then Some NFrac else None
  | NFrac => if is_digit c then Some NFrac else if is_e c then Some NExp else None
  | NExp =>
      if is_char c "+" || is_char c "-" then Some NExpSign
      else if is_digit c then Some NExpDigits
      else None
  | NExpSign => if is_digit c then Some NExpDigits else None
  | NExpDigits => if is_digit c then Some NExpDigits else None
  end.

Definition num_complete (ph : numphase) : bool :=
  match ph with
  | NZero | NInt | NFrac | NExpDigits => true
  | _ => false
  end.

Definition lex_start (toks : list token) (c : ascii) : option (lstate * list token) :=
  if is_ws c then Some (LStart, toks)
  else if is_char c "[" then Some (LStart, toks ++ [TLBracket])
  else if is_char c "]" then Some (LStart, toks ++ [TRBracket])
  else if is_char c "{" then Some (LStart, toks ++ [TLBrace])
  else if is_char c "}" then Some (LStart, toks ++ [TRBrace])
  else if is_char c "," then Some (LStart, toks ++ [TComma])
  else if is_char c ":" then Some (LStart, toks ++ [TColon])
  else if is_char c dquote then Some (LStr "" None, toks)
  else if is_char c "-" then Some (LNum NMinus "-", toks)
  else if is_char c "0" then Some (LNum NZero "0", toks)
  else if is_digit c then Some (LNum NInt (String c ""), toks)
  else if is_char c "n" then Some (LLit "ull" Null, toks)
  else if is_char c "t" then Some (LLit "rue" (Bool true), toks)
  else if is_char c "f" then Some (LLit "alse" (Bool false), toks)
  else None.

Definition lex_step (st : lstate) (toks : list token) (c : ascii)
  : option (lstate * list token) :=
  match st with
  | LStart => lex_start toks c
  | LLit expected v =>
      match expected with
      | String e rest =>
          if is_char c e then
            match rest with
            | "" => Some (LStart, toks ++ [TLit v])
            | _ => Some (LLit rest v, toks)
            end
          else None
      | "" => None
      end
  | LNum ph lexeme =>
      match num_step ph c with
      | Some ph' => Some (LNum ph' (lexeme +:+ String c ""), toks)
      | None =>
          if num_complete ph then lex_start (toks ++ [TNum lexeme]) c else None
      end
  | LStr acc hi =>
      if is_char c backslash then Some (LEsc acc hi, toks)
      else if is_char c dquote then Some (LStart, toks ++ [TStr (flush acc hi)])
      else if (code c <? 32)%N then None
      else Some (LStr (flush acc hi +:+ String c "") None, toks)
  | LEsc acc hi =>
      if is_char c "u" then Some (LHex acc hi 0 0%N, toks)
      else
        match unescape c with
        | Some d => Some (LStr (flush acc hi +:+ String d "") None, toks)
        | None => None
        end
  | LHex acc hi seen cu =>
      match hex_digit c with
      | Some d =>
          let cu := (cu * 16 + d)%N in
          if bool_decide (seen < 3) then Some (LHex acc hi (S seen) cu, toks)
          else Some (code_unit acc hi cu, toks)
      | None => None
      end
  end.

Fixpoint lex_run (st : lstate) (toks : list token) (s : string)
  : option (lstate * list token) :=
  match s with
  | "" => Some (st, toks)
  | String c s' =>
      match lex_step st toks c with
      | Some (st', toks') => lex_run st' toks' s'
      | None => None
      end
  end.

Definition lex_end (st : lstate) (toks : list token) : option (list token) :=
  match st with
  | LStart => Some toks
  | LNum ph lexeme => if num_complete ph then Some (toks ++ [TNum lexeme]) else None
  | _ => None
  end.

Definition lex (s : string) : option (list token) :=
  match lex_run LStart [] s with
  | Some (st, toks) => lex_end st toks
  | None => None
  end.

(** *** Parsing *)

(** An open container, or a member name waiting for its value. *)
Inductive frame :=
| FArr (elements : list value)
| FObj (members : list (string * value))
| FKey (key : string).

(** What may come next.  [first] is set right after the opening bracket,
    where the closing one is allowed too. *)
Inductive pstate :=
| PValue (first : bool)
| PKey (first : bool)
| PColon
| PAfter
| PDone (v : value).

(** A finished value goes into the innermost open container. *)
Definition reduce (v : value) (stack : list frame) : option (pstate * list frame) :=
  match stack with
  | [] => Some (PDone v, [])
  | FArr es :: st => Some (PAfter, FArr (es ++ [v]) :: st)
  | FKey k :: FObj ms :: st => Some (PAfter, FObj (ms ++ [(k, v)]) :: st)
  | _ => None
  end.

Definition parse_step (ps : pstate) (stack : list frame) (t : token)
  : option (pstate * list frame) :=
  match ps, t with
  | PValue _, TStr s => reduce (Str s) stack
  | PValue _, TNum l => reduce (Num l) stack
  | PValue _, TLit v => reduce v stack
  | PValue _, TLBracket => Some (PValue true, FArr [] :: stack)
  | PValue _, TLBrace => Some (PKey true, FObj [] :: stack)
  | PValue true, TRBracket =>
      match stack with FArr [] :: st => reduce (Arr []) st | _ => None end
  | PKey _, TStr k => Some (PColon, FKey k :: stack)
  | PKey true, TRBrace =>
      match stack with FObj [] :: st => reduce (Obj []) st | _ => None end
  | PColon, TColon => Some (PValue false, stack)
  | PAfter, TComma =>
      match stack with
      | FArr _ :: _ => Some (PValue false, stack)
      | FObj _ :: _ => Some (PKey false, stack)
      | _ => None
      end
  | PAfter, TRBracket =>
      match stack with FArr es :: st => reduce (Arr es) st | _ => None end
  | PAfter, TRBrace =>
      match stack with FObj ms :: st => reduce (Obj ms) st | _ => None end
  | _, _ => None
  end.

Fixpoint parse_run (ps : pstate) (stack : list frame) (toks : list token)
  : option (pstate * list frame) :=
  match toks with
  | [] => Some (ps, stack)
  | t :: toks' =>
      match parse_step ps stack t with
      | Some (ps', stack') => parse_run ps' stack' toks'
      | None => None
      end
  end.

Definition parse_tokens (toks : list token) : option value :=
  match parse_run (PValue false) [] toks with
  | Some (PDone v, []) => Some v
  | _ => None
  end.

(** [JSON.parse(text)]; [None] is the SyntaxError. *)
Definition parse (text : string) : option value :=
  match lex text with
  | Some toks => parse_tokens toks
  | None => None
  end.

End JSON.


(** ** A task list as a JSON value *)

(** The object literal of lines 77-82 has its properties in this order, and
    that is the order [JSON.stringify] writes them in. *)
Definition encodeTask (t : Task) : JSON.value :=
  JSON.Obj
    [("id", JSON.Str (Task.id t));
     ("name", JSON.Str (Task.name t));
     ("priority", JSON.Str (label (Task.priority t)));
     ("dueDate", JSON.Str (Task.dueDate t))].

Definition encode (ts : list Task) : JSON.value :=
  JSON.Arr (encodeTask <$> ts).

(** [JSON.stringify(tasks)] *)
Definition stringify (ts : list Task) : string := JSON.write (encode ts).

(** The tokens [JSON.stringify] writes for a task object and for a task
    list. *)
Definition task_tokens (t : Task) : list JSON.token :=
  [JSON.TLBrace;
   JSON.TStr "id"; JSON.TColon; JSON.TStr (Task.id t); JSON.TComma;
   JSON.TStr "name"; JSON.TColon; JSON.TStr (Task.name t); JSON.TComma;
   JSON.TStr "priority"; JSON.TColon; JSON.TStr (label (Task.priority t));
   JSON.TComma;
   JSON.TStr "dueDate"; JSON.TColon; JSON.TStr (Task.dueDate t);
   JSON.TRBrace].

Fixpoint list_tokens (ts : list Task) : list JSON.token :=
  match ts with
  | [] => []
  | t :: ts' =>
      task_tokens t
      ++ match ts' with [] => [] | _ => JSON.TComma :: list_tokens ts' end
  end.

Definition asPriority (s : string) : option Priority :=
  if decide (s = "Low") then Some Low
  else if decide (s = "Medium") then Some Medium
  else if decide (s = "High") then Some High
  else None.

(** The parsed value read at the type [Task[]] that [useState<Task[]>]
    gives it.  The cast checks nothing at run time; a value that is not a
    list of task objects as [encode] builds them (the four members, in
    that order, and no other) is outside the typed model, and [asTasks]
    is [None] there. *)
Definition asTask (v : JSON.value) : option Task :=
  match v with
  | JSON.Obj [(k1, JSON.Str i); (k2, JSON.Str n); (k3, JSON.Str p); (k4, JSON.Str d)] =>
      if decide (k1 = "id" ∧ k2 = "name" ∧ k3 = "priority" ∧ k4 = "dueDate")
      then (λ p, Task.mk i n p d) <$> asPriority p
      else None
  | _ => None
  end.

Definition asTasks (v : JSON.value) : option (list Task) :=
  match v with
  | JSON.Arr elements => mapM asTask elements
  | _ => None
  end.

(** ** localStorage and the start of the component *)

Abbreviation Storage := (gmap string string).

Definition getItem (key : string) (ls : Storage) : option string := ls !! key.
Definition setItem (key value : string) (ls : Storage) : Storage :=
  <[key := value]> ls.

Inductive Error := SyntaxError.

(** How a call ends: with a value, or with an exception nobody caught. *)
Inductive Completion (A : Type) :=
| Return (a : A)
| Throw (e : Error).
Arguments Return {A} a.
Arguments Throw {A} e.

(** The initialiser of [useState], lines 52-55. *)
Definition load (ls : Storage) : Completion JSON.value :=
  match getItem "tasks" ls with
  | Some savedTasks =>
      if falsy savedTasks then Return (JSON.Arr [])
      else
        match JSON.parse savedTasks with
        | Some v => Return v
        | None => Throw SyntaxError
        end
  | None => Return (JSON.Arr [])
  end.

Record World := mkWorld {
  app : AppState;
  storage : Storage;
}.

(** The effect of lines 63-65. *)
Definition saveTasks (s : AppState) (ls : Storage) : Storage :=
  setItem "tasks" (stringify (tasks s)) ls.

Inductive Outcome :=
| Running (w : World)
| Uncaught (e : Error)
| Untyped (v : JSON.value).

(** First render: the state cells take their initial values, then the
    effect runs once. *)
Definition mount (ls : Storage) : Outcome :=
  match load ls with
  | Throw e => Uncaught e
  | Return v =>
      match asTasks v with
      | Some ts =>
          let s := mkApp ts "" Medium "" None in
          Running (mkWorld s (saveTasks s ls))
      | None => Untyped v
      end
  end.

(** ** Events *)

Inductive Event :=
| Submit (now : Z)
| Cancel
| EditRequested (task : Task)
| DeleteRequested (id : string)
| NameChanged (v : string)
| PriorityChanged (v : Priority)
| DueDateChanged (v : string)
| Reload.

(** The handler wired to each event (lines 133, 139, 155, 161, 169, 199,
    200). *)
Definition handle (ev : Event) (s : AppState) : AppState :=
  match ev with
  | Submit now => addOrUpdateTask now s
  | Cancel => resetForm s
  | EditRequested task => editTask task s
  | DeleteRequested id => deleteTask id s
  | NameChanged v => setTaskName v s
  | PriorityChanged v => setPriority v s
  | DueDateChanged v => setDueDate v s
  | Reload => s
  end.

(** Whether the handler reaches [setTasks].  Each call passes an array made
    anew by [map], [filter] or a spread, so the dependency [tasks] of the
    effect changes and the effect runs after the render. *)
Definition setsTasks (ev : Event) (s : AppState) : bool :=
  match ev with
  | Submit _ => negb (rejects s)
  | DeleteRequested _ => true
  | _ => false
  end.

(** One event: the handler, the render, the effect.  [Reload] starts the
    component again on the storage it left.  [setItem] is taken to
    succeed and the cards to render: a storage that is full and a due
    date that [format] refuses are not modelled. *)
Definition step (ev : Event) (w : World) : Outcome :=
  match ev with
  | Reload => mount (storage w)
  | _ =>
      let s := handle ev (app w) in
      Running
        (mkWorld s
           (if setsTasks ev (app w) then saveTasks s (storage w) else storage w))
  end.

Fixpoint run (evs : list Event) (w : World) : Outcome :=
  match evs with
  | [] => Running w
  | ev :: evs' =>
      match step ev w with
      | Running w' => run evs' w'
      | o => o
      end
  end.

(** ** The time source *)

(** What [Date.now()] reads when the event calls it: a submission that is
    accepted while no task is being edited. *)
Definition reading (ev : Event) (s : AppState) : option Z :=
  match ev with
  | Submit now =>
      if rejects s then None
      else match editingTask s with Some _ => None | None => Some now end
  | _ => None
  end.

(** No id of [ts] is the decimal of a reading later than [t]: an id is
    either not the decimal of a whole number at all, or that of one no
    later than [t]. *)
Definition notAfter (t : Z) (ts : list Task) : Prop :=
  Forall (λ k, ∀ u : Z, Task.id k = pretty u → (u ≤ t)%Z) ts.

(** Along the run of [evs] from [w], each reading is later than the one
    before it, and the first is later than [t]. *)
Fixpoint advancing (t : Z) (evs : list Event) (w : World) : Prop :=
  match evs with
  | [] => True
  | ev :: evs' =>
      match reading ev (app w) with Some now => (t < now)%Z | None => True end
      ∧ match step ev w with
        | Running w' => advancing (default t (reading ev (app w))) evs' w'
        | _ => True
        end
  end.

(** The mirror is up to date. *)
Definition synced (w : World) : Prop :=
  getItem "tasks" (storage w) = Some (stringify (tasks (app w))).

(** What a run keeps true: the ids are distinct, none is the decimal of a
    clock reading later than [t], and the mirror is up to date. *)
Definition invariant (t : Z) (w : World) : Prop :=
  NoDup (ids (tasks (app w))) ∧ notAfter t (tasks (app w)) ∧ synced w.

(** ** Sample data *)

Definition taskA : Task := Task.mk "1700000000000" "Write spec" Low "2024-01-01".
Definition taskB : Task := Task.mk "1700000000500" "Review" High "2024-02-01".
Definition taskC : Task := Task.mk "1700000000900" "Ship" Medium "2024-03-01".

(** The form at rest over a task list. *)
Definition idle (ts : list Task) : AppState := mkApp ts "" Medium "" None.

(** The form filled in for a new task. *)
Definition filling (ts : list Task) : AppState :=
  mkApp ts "Review" High "2024-02-01" None.

(** [taskA] is being edited and its priority was changed to High. *)
Definition editingA (ts : list Task) : AppState :=
  setPriority High (editTask taskA (idle ts)).

(** [taskA] was opened for editing and then deleted from the list. *)
Definition staleEdit : AppState :=
  deleteTask (Task.id taskA) (editTask taskA (idle [taskA])).

(** JSON texts are written below with ['] for the double quote. *)
Fixpoint text (s : string) : string :=
  match s with
  | "" => ""
  | String c s' =>
      String (if bool_decide (c = "'"%char) then JSON.dquote else c) (text s')
  end.

(** A stored value that is not JSON. *)
Definition corrupted : Storage := {["tasks" := "{oops"]}.

(** What a session that ended with [taskA] alone left in storage. *)
Definition leftByA : Storage := {["tasks" := stringify [taskA]]}.

(** A session: add a task, edit [taskA], add another task, delete the first
    one added, open the page again. *)
Definition session : list Event :=
  [NameChanged "Review"; PriorityChanged High; DueDateChanged "2024-02-01";
   Submit 1700000000500;
   EditRequested taskA; PriorityChanged High; Submit 1700000000600;
   NameChanged "Ship"; DueDateChanged "2024-03-01"; Submit 1700000000900;
   DeleteRequested "1700000000500";
   Reload].

(** A task a submission would accept: neither its name nor its due date
    is empty (the guard of line 75, read on a task). *)
Definition wellFormed (t : Task) : Prop :=
  Task.name t ≠ "" ∧ Task.dueDate t ≠ "".

(** The events that reach only the form: typing, selecting, opening a task
    for editing, cancelling. *)
Definition formOnly (ev : Event) : bool :=
  match ev with
  | Cancel | EditRequested _ | NameChanged _ | PriorityChanged _
  | DueDateChanged _ => true
  | Submit _ | DeleteRequested _ | Reload => false
  end.

(** What the form shows of its mode: its title (line 128), the label of
    the submit button (line 164), and whether the cancel button is
    rendered (line 166). *)
Definition formTitle (s : AppState) : string :=
  match editingTask s with Some _ => "Edit Task" | None => "Add New Task" end.

Definition submitLabel (s : AppState) : string :=
  match editingTask s with Some _ => "Update Task" | None => "Add Task" end.

Definition cancelShown (s : AppState) : bool :=
  match editingTask s with Some _ => true | None => false end.

(** A task whose id did not come from the clock. *)
Definition legacy : Task := Task.mk "legacy-7" "Imported" Medium "2023-12-31".

(** Fill in the form and add a task while the clock reads what it read
    when [taskA] was made. *)
Definition clash : list Event :=
  [NameChanged "Review"; DueDateChanged "2024-02-01"; Submit 1700000000000].

(** Where [session] ends when it starts from [taskA] alone. *)
Definition sessionEnd : World :=
  let ts := [Task.mk "1700000000000" "Write spec" High "2024-01-01"; taskC] in
  mkWorld (idle ts) {["tasks" := stringify ts]}.

(** A task that a stored list can hold but no submission would accept. *)
Definition unnamed : Task := Task.mk "1700000000100" "" Low "2024-01-01".

(** Two tasks under one id. *)
Definition twinA : Task := Task.mk "1700000000000" "Twin" High "2024-05-05".

(** * Properties *)

(** Closes a decidable goal about concrete data by evaluation. *)
Ltac decide_now := apply (bool_decide_unpack _); vm_compute; exact I.

(** ** The form handlers *)

Lemma falsy_spec (s : string) : falsy s = true ↔ s = "".
Proof. unfold falsy. apply bool_decide_eq_true. Qed.

Lemma rejects_true (s : AppState) :
  rejects s = true ↔ taskName s = "" ∨ dueDate s = "".
Proof.
  unfold rejects. rewrite orb_true_iff, !falsy_spec. done.
Qed.

Lemma rejects_false (s : AppState) :
  rejects s = false ↔ taskName s ≠ "" ∧ dueDate s ≠ "".
Proof.
  rewrite <-not_true_iff_false, rejects_true.
  split; [intros H; split; intros E; apply H; auto | intros [H1 H2] [E|E]; auto].
Qed.

Lemma addOrUpdateTask_accepted (now : Z) (s : AppState) :
  taskName s ≠ "" → dueDate s ≠ "" →
  addOrUpdateTask now s =
    resetForm
      (setTasks
         (λ prevTasks,
            match editingTask s with
            | Some e =>
                (λ t, if bool_decide (Task.id t = Task.id e)
                      then newTask now s else t) <$> prevTasks
            | None => prevTasks ++ [newTask now s]
            end) s).
Proof.
  intros Hn Hd. unfold addOrUpdateTask.
  by rewrite (proj2 (rejects_false s) (conj Hn Hd)).
Qed.

(** The callback of [map] at line 86 never changes the id of the task it
    is given. *)
Lemma replace_keeps_ids (e new : Task) (ts : list Task) :
  Task.id new = Task.id e →
  ids ((λ t, if bool_decide (Task.id t = Task.id e) then new else t) <$> ts) = ids ts.
Proof.
  intros Hid. unfold ids. rewrite <-list_fmap_compose.
  apply list_fmap_ext. intros i t _. simpl.
  case_bool_decide; congruence.
Qed.

Lemma replace_no_match (e new : Task) (ts : list Task) :
  Task.id e ∉ ids ts →
  (λ t, if bool_decide (Task.id t = Task.id e) then new else t) <$> ts = ts.
Proof.
  induction ts as [|t ts IH]; [done|].
  unfold ids. rewrite fmap_cons, not_elem_of_cons. intros [Hne Hnot].
  rewrite fmap_cons, IH by done.
  by rewrite bool_decide_eq_false_2.
Qed.

(** C1: a valid submission with no task being edited appends one task, built
    from the form and the clock, at the end of the list. *)
Theorem create_appends_one (now : Z) (s : AppState) :
  taskName s ≠ "" → dueDate s ≠ "" → editingTask s = None →
  let created := Task.mk (pretty now) (taskName s) (priority s) (dueDate s) in
  tasks (addOrUpdateTask now s) = tasks s ++ [created]
  ∧ length (tasks (addOrUpdateTask now s)) = S (length (tasks s))
  ∧ last (tasks (addOrUpdateTask now s)) = Some created
  ∧ Task.name created = taskName s
  ∧ Task.priority created = priority s
  ∧ Task.dueDate created = dueDate s.
Proof.
  intros Hn Hd He created.
  rewrite addOrUpdateTask_accepted by done.
  unfold newTask. rewrite He. simpl. fold created.
  rewrite length_app, last_snoc. simpl. repeat split; lia.
Qed.

Lemma create_appends_one_witness :
  taskName (filling [taskA]) ≠ "" ∧ dueDate (filling [taskA]) ≠ ""
  ∧ editingTask (filling [taskA]) = None
  ∧ tasks (addOrUpdateTask 1700000000500 (filling [taskA])) = [taskA; taskB]
  ∧ length (tasks (addOrUpdateTask 1700000000500 (filling [taskA]))) = 2.
Proof.
  assert (taskName (filling [taskA]) ≠ "") as Hn by done.
  assert (dueDate (filling [taskA]) ≠ "") as Hd by done.
  assert (editingTask (filling [taskA]) = None) as He by done.
  destruct (create_appends_one 1700000000500 _ Hn Hd He) as (Happ & Hlen & _).
  split_and!; [exact Hn | exact Hd | exact He | exact Happ | exact Hlen].
Defined.

(** C2: a valid submission while a task of the list is being edited keeps the
    length and the ids of the list, puts the form's values, under the
    edited id, at every position that holds that id, and keeps every other
    position as it was. *)
Theorem update_replaces_in_place (now : Z) (s : AppState) (e : Task) :
  taskName s ≠ "" → dueDate s ≠ "" → editingTask s = Some e →
  Task.id e ∈ ids (tasks s) →
  let updated := Task.mk (Task.id e) (taskName s) (priority s) (dueDate s) in
  let ts' := tasks (addOrUpdateTask now s) in
  length ts' = length (tasks s)
  ∧ ids ts' = ids (tasks s)
  ∧ (∀ i t, tasks s !! i = Some t →
       ts' !! i = Some (if decide (Task.id t = Task.id e) then updated else t))
  ∧ updated ∈ ts'
  ∧ (NoDup (ids (tasks s)) →
       ∃ before t after,
         tasks s = before ++ t :: after ∧ Task.id t = Task.id e
         ∧ ts' = before ++ updated :: after).
Proof.
  intros Hn Hd He Hin updated ts'. subst ts'.
  rewrite addOrUpdateTask_accepted by done.
  unfold newTask. rewrite He. simpl. fold updated.
  split_and!.
  - by rewrite length_fmap.
  - by apply replace_keeps_ids.
  - intros i t Hi. rewrite list_lookup_fmap, Hi. simpl.
    by case_bool_decide; case_decide.
  - unfold ids in Hin. apply list_elem_of_fmap in Hin as (t & Hid & Ht).
    apply list_elem_of_fmap. exists t. split; [|done].
    by rewrite bool_decide_eq_true_2.
  - intros Hnd.
    unfold ids in Hin. apply list_elem_of_fmap in Hin as (t & Hid & Ht).
    apply list_elem_of_split in Ht as (before & after & Hsplit).
    exists before, t, after. split_and!; [done..|].
    rewrite Hsplit in Hnd |- *. unfold ids in Hnd.
    rewrite fmap_app, fmap_cons in Hnd.
    apply NoDup_app in Hnd as (_ & Hdisj & Hnd).
    apply NoDup_cons in Hnd as (Hafter & _).
    rewrite fmap_app, fmap_cons.
    rewrite !replace_no_match.
    + by rewrite bool_decide_eq_true_2.
    + unfold ids. by rewrite Hid.
    + unfold ids. rewrite Hid. intros Hb. apply (Hdisj _ Hb). left.
Qed.

Lemma update_replaces_in_place_witness :
  let s := editingA [taskB; taskA; taskC] in
  taskName s ≠ "" ∧ dueDate s ≠ "" ∧ editingTask s = Some taskA
  ∧ Task.id taskA ∈ ids (tasks s)
  ∧ length (tasks (addOrUpdateTask 0 s)) = 3
  ∧ ids (tasks (addOrUpdateTask 0 s)) = ids [taskB; taskA; taskC]
  ∧ tasks (addOrUpdateTask 0 s) !! 1
    = Some (Task.mk (Task.id taskA) "Write spec" High "2024-01-01")
  ∧ tasks (addOrUpdateTask 0 s) !! 2 = Some taskC.
Proof.
  intros s.
  assert (taskName s ≠ "") as Hn by done.
  assert (dueDate s ≠ "") as Hd by done.
  assert (editingTask s = Some taskA) as He by done.
  assert (Task.id taskA ∈ ids (tasks s)) as Hin by decide_now.
  destruct (update_replaces_in_place 0 s taskA Hn Hd He Hin)
    as (Hlen & Hids & Hat & _).
  split_and!; [done..|exact Hlen|exact Hids| |].
  - exact (Hat 1 taskA eq_refl).
  - exact (Hat 2 taskC eq_refl).
Defined.

(** C3: a submission with an empty name or an empty due date changes
    nothing, whether or not a task is being edited: the list, the form and
    the stored copy are what they were. *)
Theorem invalid_submission_changes_nothing (now : Z) (w : World) :
  taskName (app w) = "" ∨ dueDate (app w) = "" →
  tasks (addOrUpdateTask now (app w)) = tasks (app w)
  ∧ addOrUpdateTask now (app w) = app w
  ∧ step (Submit now) w = Running w.
Proof.
  intros Hrej. apply rejects_true in Hrej.
  assert (addOrUpdateTask now (app w) = app w) as Hsame.
  { unfold addOrUpdateTask. by rewrite Hrej. }
  split_and!; [by rewrite Hsame | done |].
  unfold step, handle, setsTasks. rewrite Hsame, Hrej. simpl. by destruct w.
Qed.

Lemma invalid_submission_changes_nothing_witness :
  let w := mkWorld (setTaskName "" (editingA [taskA; taskB])) ∅ in
  (taskName (app w) = "" ∨ dueDate (app w) = "")
  ∧ tasks (addOrUpdateTask 5 (app w)) = [taskA; taskB]
  ∧ editingTask (addOrUpdateTask 5 (app w)) = Some taskA
  ∧ step (Submit 5) w = Running w.
Proof.
  intros w.
  assert (taskName (app w) = "" ∨ dueDate (app w) = "") as Hrej by (by left).
  destruct (invalid_submission_changes_nothing 5 w Hrej) as (Hts & Hsame & Hstep).
  split_and!; [exact Hrej | exact Hts | by rewrite Hsame | exact Hstep].
Defined.

Lemma deleteTask_tasks (id : string) (s : AppState) :
  tasks (deleteTask id s) = filter (λ task, Task.id task ≠ id) (tasks s).
Proof. done. Qed.

Lemma filter_absent (id : string) (ts : list Task) :
  id ∉ ids ts → filter (λ task, Task.id task ≠ id) ts = ts.
Proof.
  unfold ids. induction ts as [|t ts IH]; [done|].
  rewrite fmap_cons, not_elem_of_cons. intros [Hne Hnot].
  rewrite filter_cons_True by done. by rewrite IH.
Qed.

Lemma filter_id_absent (id : string) (ts : list Task) :
  id ∉ ids (filter (λ task, Task.id task ≠ id) ts).
Proof.
  unfold ids. intros (t & -> & Ht)%list_elem_of_fmap.
  by apply list_elem_of_filter in Ht as [Hne _].
Qed.

Lemma saveTasks_synced (s : AppState) (ls : Storage) :
  synced (mkWorld s ls) → saveTasks s ls = ls.
Proof. unfold synced, saveTasks, setItem. simpl. apply insert_id. Qed.

Lemma saveTasks_twice (s : AppState) (ls : Storage) :
  saveTasks s (saveTasks s ls) = saveTasks s ls.
Proof. unfold saveTasks, setItem. apply insert_insert_eq. Qed.

(** C4: after [deleteTask id] no task of the list has that id; every task
    with another id is kept, in order; when no task has the id the whole
    state is what it was, and so is an up-to-date stored copy; deleting
    twice is deleting once, for the state and for the stored copy. *)
Theorem delete_removes_id (id : string) (s : AppState) :
  (id ∉ ids (tasks (deleteTask id s)))
  ∧ (∀ t, t ∈ tasks (deleteTask id s) ↔ t ∈ tasks s ∧ Task.id t ≠ id)
  ∧ tasks (deleteTask id s) `sublist_of` tasks s
  ∧ (id ∉ ids (tasks s) → deleteTask id s = s)
  ∧ (∀ ls, id ∉ ids (tasks s) → synced (mkWorld s ls) →
       step (DeleteRequested id) (mkWorld s ls) = Running (mkWorld s ls))
  ∧ deleteTask id (deleteTask id s) = deleteTask id s
  ∧ (∀ ls, ∃ w, step (DeleteRequested id) (mkWorld s ls) = Running w
                ∧ step (DeleteRequested id) w = Running w).
Proof.
  assert (∀ s', id ∉ ids (tasks s') → deleteTask id s' = s') as Habsent.
  { intros [ts n p d e] Hnot. unfold deleteTask, setTasks.
    simpl in *. by rewrite filter_absent. }
  assert (deleteTask id (deleteTask id s) = deleteTask id s) as Htwice.
  { apply Habsent. apply filter_id_absent. }
  split_and!; [| | |apply Habsent| |done|].
  - apply filter_id_absent.
  - intros t. rewrite deleteTask_tasks, list_elem_of_filter. tauto.
  - apply sublist_filter.
  - intros ls Hnot Hsync. unfold step. cbn [handle setsTasks app storage].
    rewrite Habsent by done. by rewrite saveTasks_synced.
  - intros ls. eexists. split; [done|].
    unfold step. cbn [handle setsTasks app storage].
    by rewrite Htwice, saveTasks_twice.
Qed.

Lemma delete_removes_id_witness :
  tasks (deleteTask (Task.id taskA) (idle [taskB; taskA; taskC])) = [taskB; taskC]
  ∧ ("42" ∉ ids (tasks (idle [taskA; taskB])) →
     deleteTask "42" (idle [taskA; taskB]) = idle [taskA; taskB])
  ∧ deleteTask "42" (idle [taskA; taskB]) = idle [taskA; taskB]
  ∧ step (DeleteRequested "42") (mkWorld (idle [taskA]) leftByA)
    = Running (mkWorld (idle [taskA]) leftByA).
Proof.
  destruct (delete_removes_id "42" (idle [taskA; taskB])) as (_ & _ & _ & Habs & _).
  destruct (delete_removes_id "42" (idle [taskA])) as (_ & _ & _ & _ & Hstep & _).
  split_and!; [done | exact Habs | |].
  - apply Habs. decide_now.
  - apply Hstep; [decide_now | by vm_compute].
Defined.

(** C7 as stated fails: with a task being edited whose id is no longer in
    the list, a valid submission appends nothing. *)
Lemma stale_edit_appends_nothing :
  rejects staleEdit = false
  ∧ editingTask staleEdit = Some taskA
  ∧ (Task.id taskA ∉ ids (tasks staleEdit))
  ∧ tasks (addOrUpdateTask 1700000005000 staleEdit) = []
  ∧ length (tasks (addOrUpdateTask 1700000005000 staleEdit))
    ≠ S (length (tasks staleEdit)).
Proof.
  split_and!; [done | done | decide_now | done | done].
Qed.

(** C7, amended: a valid submission while the task being edited has an id
    that no task of the list has leaves the list as it is (nothing is
    appended, the count is unchanged) and puts the form back to rest. *)
Theorem stale_edit_keeps_list (now : Z) (s : AppState) (e : Task) :
  taskName s ≠ "" → dueDate s ≠ "" → editingTask s = Some e →
  Task.id e ∉ ids (tasks s) →
  tasks (addOrUpdateTask now s) = tasks s
  ∧ length (tasks (addOrUpdateTask now s)) = length (tasks s)
  ∧ addOrUpdateTask now s = idle (tasks s).
Proof.
  intros Hn Hd He Hnot.
  assert (addOrUpdateTask now s = idle (tasks s)) as ->; [|done].
  rewrite addOrUpdateTask_accepted by done. rewrite He.
  unfold resetForm, setTasks, idle. simpl.
  by rewrite replace_no_match.
Qed.

Lemma stale_edit_keeps_list_witness :
  taskName staleEdit ≠ "" ∧ dueDate staleEdit ≠ ""
  ∧ editingTask staleEdit = Some taskA
  ∧ (Task.id taskA ∉ ids (tasks staleEdit))
  ∧ tasks (addOrUpdateTask 7 staleEdit) = tasks staleEdit
  ∧ addOrUpdateTask 7 staleEdit = idle [].
Proof.
  assert (taskName staleEdit ≠ "") as Hn by done.
  assert (dueDate staleEdit ≠ "") as Hd by done.
  assert (editingTask staleEdit = Some taskA) as He by done.
  assert (Task.id taskA ∉ ids (tasks staleEdit)) as Hnot by decide_now.
  destruct (stale_edit_keeps_list 7 staleEdit taskA Hn Hd He Hnot) as (Hts & _ & Hidle).
  split_and!; [done..| exact Hts | exact Hidle].
Defined.

(** C10: a rejected submission leaves the whole form as it was, the task
    being edited and the pending values included; an accepted one puts the
    form back to rest: empty name, Medium, empty date, nothing edited. *)
Theorem form_reset_only_when_accepted (now : Z) (s : AppState) :
  (taskName s = "" ∨ dueDate s = "" →
     taskName (addOrUpdateTask now s) = taskName s
     ∧ priority (addOrUpdateTask now s) = priority s
     ∧ dueDate (addOrUpdateTask now s) = dueDate s
     ∧ editingTask (addOrUpdateTask now s) = editingTask s)
  ∧ (taskName s ≠ "" → dueDate s ≠ "" →
     taskName (addOrUpdateTask now s) = ""
     ∧ priority (addOrUpdateTask now s) = Medium
     ∧ dueDate (addOrUpdateTask now s) = ""
     ∧ editingTask (addOrUpdateTask now s) = None).
Proof.
  split.
  - intros Hrej%rejects_true. unfold addOrUpdateTask. by rewrite Hrej.
  - intros Hn Hd. by rewrite addOrUpdateTask_accepted.
Qed.

Lemma form_reset_only_when_accepted_witness :
  let s := setDueDate "" (editingA [taskA]) in
  (taskName s = "" ∨ dueDate s = "")
  ∧ editingTask (addOrUpdateTask 3 s) = Some taskA
  ∧ taskName (addOrUpdateTask 3 s) = "Write spec"
  ∧ priority (addOrUpdateTask 3 s) = High
  ∧ editingTask (addOrUpdateTask 3 (editingA [taskA])) = None
  ∧ priority (addOrUpdateTask 3 (editingA [taskA])) = Medium.
Proof.
  intros s.
  assert (taskName s = "" ∨ dueDate s = "") as Hrej by (by right).
  destruct (form_reset_only_when_accepted 3 s) as [Hkeep _].
  destruct (Hkeep Hrej) as (Hname & Hprio & _ & Hedit).
  destruct (form_reset_only_when_accepted 3 (editingA [taskA])) as [_ Hreset].
  destruct Hreset as (_ & Hp & _ & He); [done..|].
  split_and!; [exact Hrej | by rewrite Hedit | by rewrite Hname | by rewrite Hprio
              | exact He | exact Hp].
Defined.

(** ** Grouping *)

Lemma group_step_lookup (acc : gmap Priority (list Task)) (t : Task) (p : Priority) :
  group_step acc t !! p =
    if decide (Task.priority t = p)
    then Some (default [] (acc !! p) ++ [t])
    else acc !! p.
Proof.
  unfold group_step.
  destruct (acc !! Task.priority t) as [b|] eqn:Hacc; case_decide as Hp.
  - subst p. by rewrite lookup_alter_eq, Hacc.
  - by rewrite lookup_alter_ne.
  - subst p. by rewrite lookup_alter_eq, lookup_insert_eq, Hacc.
  - by rewrite lookup_alter_ne, lookup_insert_ne.
Qed.

Lemma bucket_cons (p : Priority) (t : Task) (ts : list Task) :
  bucket p (t :: ts) =
    if decide (Task.priority t = p) then t :: bucket p ts else bucket p ts.
Proof. unfold bucket. by rewrite filter_cons. Qed.

(** The accumulator after the [reduce]: each bucket it had, followed by
    the tasks of that priority in list order; a bucket it did not have
    exists afterwards only if some task has that priority. *)
Lemma foldl_group_lookup (ts : list Task) (acc : gmap Priority (list Task))
    (p : Priority) :
  foldl group_step acc ts !! p =
    match acc !! p with
    | Some b => Some (b ++ bucket p ts)
    | None => match bucket p ts with [] => None | b => Some b end
    end.
Proof.
  revert acc. induction ts as [|t ts IH]; intros acc; simpl.
  - destruct (acc !! p); [by rewrite app_nil_r | done].
  - rewrite IH, group_step_lookup, bucket_cons.
    case_decide; [|done].
    destruct (acc !! p); simpl; [by rewrite <-app_assoc | done].
Qed.

Lemma groupedTasks_lookup (ts : list Task) (p : Priority) :
  groupedTasks ts !! p =
    match bucket p ts with [] => None | b => Some b end.
Proof. unfold groupedTasks. by rewrite foldl_group_lookup, lookup_empty. Qed.

Lemma buckets_permutation (ts : list Task) :
  bucket High ts ++ bucket Medium ts ++ bucket Low ts ≡ₚ ts.
Proof.
  induction ts as [|t ts IH]; [done|].
  rewrite !bucket_cons.
  destruct (Task.priority t); repeat case_decide; try done; simpl.
  - rewrite app_assoc. symmetry. apply Permutation_cons_app.
    rewrite <-app_assoc. by symmetry.
  - symmetry. apply Permutation_cons_app. by symmetry.
  - by apply Permutation_skip.
Qed.

Lemma sections_unfold (ts : list Task) :
  sections ts =
    filter (λ sec, sec.2 ≠ []) ((λ p, (p, bucket p ts)) <$> priorityOrder).
Proof.
  unfold sections, priorityOrder. simpl. rewrite !groupedTasks_lookup.
  destruct (bucket High ts), (bucket Medium ts), (bucket Low ts); done.
Qed.

(** C5: the rendered sections are the buckets of High, Medium and Low, in
    that order, each holding the tasks of its priority in list order, an
    empty bucket left out; together they hold every task exactly once. *)
Theorem grouping_is_ordered_partition (ts : list Task) :
  sections ts =
    filter (λ sec, sec.2 ≠ []) ((λ p, (p, bucket p ts)) <$> [High; Medium; Low])
  ∧ concat (snd <$> sections ts) ≡ₚ ts
  ∧ (∀ p b, (p, b) ∈ sections ts → b ≠ [] ∧ b = bucket p ts)
  ∧ (∀ t, t ∈ ts → ∃ b, (Task.priority t, b) ∈ sections ts ∧ t ∈ b)
  ∧ (fst <$> sections ts) `sublist_of` [High; Medium; Low]
  ∧ (∀ p, groupedTasks ts !! p = None ↔ bucket p ts = []).
Proof.
  assert (∀ p b, (p, b) ∈ sections ts ↔ b ≠ [] ∧ b = bucket p ts) as Hsec.
  { intros p b. rewrite sections_unfold, list_elem_of_filter, list_elem_of_fmap.
    simpl. split.
    - intros (Hne & q & [= -> ->] & _). done.
    - intros (Hne & ->). split; [done|]. exists p. split; [done|].
      unfold priorityOrder. destruct p; set_solver. }
  split_and!.
  - apply sections_unfold.
  - rewrite <-(buckets_permutation ts) at 2.
    rewrite sections_unfold. unfold priorityOrder. simpl.
    rewrite !filter_cons, filter_nil. simpl.
    destruct (bucket High ts), (bucket Medium ts), (bucket Low ts);
      repeat case_decide; simpl; rewrite ?app_nil_r; done.
  - intros p b. apply Hsec.
  - intros t Ht. exists (bucket (Task.priority t) ts).
    assert (t ∈ bucket (Task.priority t) ts) as Hin.
    { unfold bucket. by apply list_elem_of_filter. }
    split; [|done]. apply Hsec. split; [|done]. intros E. rewrite E in Hin.
    by apply not_elem_of_nil in Hin.
  - rewrite sections_unfold. unfold priorityOrder. simpl.
    rewrite !filter_cons, filter_nil.
    repeat case_decide; simpl; repeat constructor.
  - intros p. rewrite groupedTasks_lookup. by destruct (bucket p ts).
Qed.

(** The two grouping scenarios of the specification. *)
Example sections_single_high :
  sections [Task.mk "1" "Write spec" High "2024-01-01"]
  = [(High, [Task.mk "1" "Write spec" High "2024-01-01"])].
Proof. by vm_compute. Qed.

Example sections_high_before_medium :
  sections [taskC; taskB] = [(High, [taskB]); (Medium, [taskC])].
Proof. by vm_compute. Qed.

(** ** What is written is read back *)

Section roundtrip.
Import JSON.

Lemma append_cons (x : ascii) (a b : string) :
  String x a +:+ b = String x (a +:+ b).
Proof. reflexivity. Qed.

Lemma append_nil_l (b : string) : "" +:+ b = b.
Proof. reflexivity. Qed.

Lemma append_assoc (a b c : string) : (a +:+ b) +:+ c = a +:+ b +:+ c.
Proof.
  induction a as [|x a IH]; [done|]. rewrite !append_cons. by f_equal.
Qed.

Lemma append_nil_r (a : string) : a +:+ "" = a.
Proof.
  induction a as [|x a IH]; [done|]. rewrite append_cons. by f_equal.
Qed.

Lemma lex_run_app (st : lstate) (toks : list token) (s1 s2 : string) :
  lex_run st toks (s1 +:+ s2) =
    match lex_run st toks s1 with
    | Some (st', toks') => lex_run st' toks' s2
    | None => None
    end.
Proof.
  revert st toks. induction s1 as [|c s1 IH]; intros st toks; [done|].
  rewrite append_cons. simpl.
  destruct (lex_step st toks c) as [[st' toks']|]; [apply IH | done].
Qed.

Lemma lex_run_cons (st : lstate) (toks : list token) (c : ascii) (s : string) :
  lex_run st toks (String c s) =
    match lex_step st toks c with
    | Some (st', toks') => lex_run st' toks' s
    | None => None
    end.
Proof. reflexivity. Qed.

(** Reads the first character of the input, evaluating the one step. *)
Ltac lex_one :=
  rewrite lex_run_cons;
  match goal with
  | |- context [lex_step ?st ?tk ?c] =>
      let r := eval vm_compute in (lex_step st tk c) in
      change (lex_step st tk c) with r
  end;
  cbv beta iota.

(** Inside a string, the escape of a character is read back as that
    character. *)
Lemma lex_escape_char (c : ascii) (acc : string) (toks : list token) (rest : string) :
  lex_run (LStr acc None) toks (escape_char c +:+ rest)
  = lex_run (LStr (acc +:+ String c "") None) toks rest.
Proof.
  destruct c as [[] [] [] [] [] [] [] []];
    match goal with
    | |- context [escape_char ?c] =>
        let e := eval vm_compute in (escape_char c) in
        change (escape_char c) with e
    end;
    rewrite ?append_cons, append_nil_l;
    repeat lex_one;
    reflexivity.
Qed.

Lemma lex_escape (s acc : string) (toks : list token) (rest : string) :
  lex_run (LStr acc None) toks (escape s +:+ rest)
  = lex_run (LStr (acc +:+ s) None) toks rest.
Proof.
  revert acc. induction s as [|c s IH]; intros acc; simpl.
  - by rewrite append_nil_l, append_nil_r.
  - rewrite append_assoc, lex_escape_char, IH, append_assoc. done.
Qed.

Lemma lex_quote (s : string) (toks : list token) (rest : string) :
  lex_run LStart toks (quote s +:+ rest)
  = lex_run LStart (toks ++ [TStr s]) rest.
Proof.
  unfold quote. rewrite append_cons, append_assoc, append_cons, append_nil_l.
  change (lex_run LStart toks (String dquote ?s))
    with (lex_run (LStr "" None) toks s).
  rewrite lex_escape, append_nil_l. done.
Qed.

Lemma lex_punct (c : ascii) (t : token) (toks : list token) (rest : string) :
  lex_start toks c = Some (LStart, toks ++ [t]) →
  lex_run LStart toks (String c rest) = lex_run LStart (toks ++ [t]) rest.
Proof. intros H. simpl. by rewrite H. Qed.

Lemma lex_task (t : Task) (toks : list token) (rest : string) :
  lex_run LStart toks (write (encodeTask t) +:+ rest)
  = lex_run LStart (toks ++ task_tokens t) rest.
Proof.
  unfold encodeTask, task_tokens. cbn [write fmap list_fmap commas fst snd].
  rewrite ?append_assoc, ?append_cons, ?append_nil_l.
  repeat first
    [ rewrite lex_quote
    | erewrite lex_punct by (vm_compute; reflexivity)
    | rewrite <-app_assoc; cbn [app] ].
  reflexivity.
Qed.

Lemma lex_tasks (ts : list Task) (toks : list token) (rest : string) :
  lex_run LStart toks (commas (write <$> (encodeTask <$> ts)) +:+ rest)
  = lex_run LStart (toks ++ list_tokens ts) rest.
Proof.
  revert toks. induction ts as [|t ts IH]; intros toks.
  - simpl. by rewrite append_nil_l, app_nil_r.
  - destruct ts as [|t' ts].
    + change (commas (write <$> (encodeTask <$> [t]))) with (write (encodeTask t)).
      change (list_tokens [t]) with (task_tokens t ++ []).
      by rewrite lex_task, app_nil_r.
    + change (commas (write <$> (encodeTask <$> t :: t' :: ts)))
        with (write (encodeTask t) +:+ "," +:+
              commas (write <$> (encodeTask <$> t' :: ts))).
      rewrite !append_assoc, lex_task, append_cons, append_nil_l.
      erewrite lex_punct by (vm_compute; reflexivity).
      rewrite IH.
      change (list_tokens (t :: t' :: ts))
        with (task_tokens t ++ TComma :: list_tokens (t' :: ts)).
      by rewrite <-!app_assoc.
Qed.

Lemma lex_stringify (ts : list Task) :
  lex (stringify ts) = Some (TLBracket :: list_tokens ts ++ [TRBracket]).
Proof.
  unfold lex, stringify, encode. cbn [write].
  rewrite append_cons, append_nil_l.
  erewrite lex_punct by (vm_compute; reflexivity).
  rewrite lex_tasks.
  erewrite lex_punct by (vm_compute; reflexivity).
  done.
Qed.

(** A task object, read where a value may stand inside an array. *)
Lemma parse_task (t : Task) (first : bool) (es : list value)
    (stack : list frame) (rest : list token) :
  parse_run (PValue first) (FArr es :: stack) (task_tokens t ++ rest)
  = parse_run PAfter (FArr (es ++ [encodeTask t]) :: stack) rest.
Proof. by destruct first. Qed.

Lemma parse_tasks (t : Task) (ts : list Task) (first : bool) (es : list value)
    (stack : list frame) (rest : list token) :
  parse_run (PValue first) (FArr es :: stack) (list_tokens (t :: ts) ++ rest)
  = parse_run PAfter (FArr (es ++ (encodeTask <$> t :: ts)) :: stack) rest.
Proof.
  revert t first es. induction ts as [|t' ts IH]; intros t first es.
  - change (list_tokens [t]) with (task_tokens t ++ []).
    rewrite app_nil_r. apply parse_task.
  - change (list_tokens (t :: t' :: ts))
      with (task_tokens t ++ TComma :: list_tokens (t' :: ts)).
    rewrite <-app_assoc, parse_task.
    change (parse_run PAfter ?st ((TComma :: ?l) ++ rest))
      with (parse_run (PValue false) st (l ++ rest)).
    rewrite IH, <-app_assoc. done.
Qed.

Lemma parse_tokens_tasks (ts : list Task) :
  parse_tokens (TLBracket :: list_tokens ts ++ [TRBracket]) = Some (encode ts).
Proof.
  unfold parse_tokens, encode.
  change (parse_run (PValue false) [] (TLBracket :: ?l))
    with (parse_run (PValue true) [FArr []] l).
  destruct ts as [|t ts]; [done|].
  by rewrite parse_tasks.
Qed.

(** Reading back what [JSON.stringify] wrote for a task list gives the
    value of that list. *)
Lemma parse_stringify (ts : list Task) :
  parse (stringify ts) = Some (encode ts).
Proof. unfold parse. by rewrite lex_stringify, parse_tokens_tasks. Qed.

Lemma asPriority_label (p : Priority) : asPriority (label p) = Some p.
Proof. by destruct p. Qed.

Lemma asTask_encodeTask (t : Task) : asTask (encodeTask t) = Some t.
Proof.
  destruct t as [i n p d]. unfold encodeTask, asTask.
  cbn [Task.id Task.name Task.priority Task.dueDate].
  rewrite decide_True by done. by rewrite asPriority_label.
Qed.

Lemma asTasks_encode (ts : list Task) : asTasks (encode ts) = Some ts.
Proof. unfold asTasks, encode. apply mapM_fmap_Some, asTask_encodeTask. Qed.

Lemma stringify_truthy (ts : list Task) : falsy (stringify ts) = false.
Proof. done. Qed.

End roundtrip.

(** What the reader accepts and what it refuses. *)
Example parse_stored_list :
  JSON.parse
    (text "[ {'id':'1700000000000', 'name':'Write spec',
              'priority':'Low', 'dueDate':'2024-01-01'} ]")
  = Some (encode [taskA]).
Proof. by vm_compute. Qed.

Example parse_values :
  JSON.parse (text "{'a':[1,-0.5e+3,true,null],'b':{}}")
  = Some (JSON.Obj
            [("a", JSON.Arr [JSON.Num "1"; JSON.Num "-0.5e+3";
                             JSON.Bool true; JSON.Null]);
             ("b", JSON.Obj [])]).
Proof. by vm_compute. Qed.

Example parse_escapes :
  JSON.parse (text "'a\nb\u0041\u00e9\ud83d\ude00\/'")
  = Some (JSON.Str
            ("a" +:+ String "010" "bA"
             +:+ String "195" (String "169" "")
             +:+ String "240" (String "159" (String "152" (String "128" "/"))))).
Proof. by vm_compute. Qed.

Example parse_refuses :
  Forall (λ t, JSON.parse (text t) = None)
    [""; "{oops"; "[1,2,]"; "[1 2]"; "{'a':1,}"; "{'a' 1}"; "{1:2}"; "[}";
     "01"; "1."; "-"; "1e"; "nul"; "truefalse"; "'abc"; "'\x'"; "[]]"; "]";
     "'\u12'"; "undefined"].
Proof. repeat constructor. Qed.

Example stringify_escapes :
  stringify [Task.mk "1" (text "say 'hi'\") Low (String "010" (String "031" ""))]
  = text "[{'id':'1','name':'say \'hi\'\\','priority':'Low','dueDate':'\n\u001f'}]".
Proof. by vm_compute. Qed.

Lemma emptyState_sections (ts : list Task) :
  emptyState ts = true ↔ sections ts = [].
Proof.
  unfold emptyState. rewrite bool_decide_eq_true, length_zero_iff_nil.
  split; [by intros ->|].
  intros Hsec. destruct ts as [|t ts]; [done|]. exfalso.
  assert (groupedTasks (t :: ts) !! Task.priority t ≠ None) as Hp.
  { rewrite groupedTasks_lookup.
    assert (t ∈ bucket (Task.priority t) (t :: ts)) as Hin.
    { unfold bucket. apply list_elem_of_filter. split; [done | left]. }
    destruct (bucket (Task.priority t) (t :: ts)); [|done].
    by apply not_elem_of_nil in Hin. }
  revert Hsec Hp. unfold sections, priorityOrder. simpl.
  destruct (Task.priority t);
    destruct (groupedTasks (t :: ts) !! High),
             (groupedTasks (t :: ts) !! Medium),
             (groupedTasks (t :: ts) !! Low); simpl; done.
Qed.

(** ** Start of the component *)

Lemma load_absent (ls : Storage) :
  getItem "tasks" ls = None → load ls = Return (JSON.Arr []).
Proof. unfold load. by intros ->. Qed.

Lemma load_present (ls : Storage) (text : string) :
  getItem "tasks" ls = Some text → text ≠ "" →
  load ls =
    match JSON.parse text with
    | Some v => Return v
    | None => Throw SyntaxError
    end.
Proof.
  unfold load. intros -> Hne.
  assert (falsy text = false) as ->; [|done].
  by apply bool_decide_eq_false.
Qed.

(** C6 as stated fails: a stored value that is not JSON makes the
    initialiser throw, and the component does not start. *)
Lemma load_unparsable_throws :
  getItem "tasks" corrupted = Some "{oops"
  ∧ JSON.parse "{oops" = None
  ∧ load corrupted = Throw SyntaxError
  ∧ load corrupted ≠ Return (JSON.Arr [])
  ∧ mount corrupted = Uncaught SyntaxError.
Proof. split_and!; by vm_compute. Qed.

(** C6, amended: when nothing is stored under the key, or the empty string
    is, the initialiser returns the empty list without throwing and the
    component starts on an empty store; when a non-empty string is stored
    that [JSON.parse] rejects, the SyntaxError is not caught: the
    initialiser throws and the component does not start. *)
Theorem load_outcomes (ls : Storage) :
  (getItem "tasks" ls = None ∨ getItem "tasks" ls = Some "" →
     load ls = Return (JSON.Arr [])
     ∧ ∃ w, mount ls = Running w ∧ tasks (app w) = [])
  ∧ (∀ text, getItem "tasks" ls = Some text → text ≠ "" →
     JSON.parse text = None →
     load ls = Throw SyntaxError ∧ mount ls = Uncaught SyntaxError).
Proof.
  split.
  - intros Hls.
    assert (load ls = Return (JSON.Arr [])) as Hload.
    { destruct Hls as [H|H]; [by apply load_absent|]. unfold load. by rewrite H. }
    split; [done|]. unfold mount. rewrite Hload. simpl. eauto.
  - intros text Hget Hne Hparse.
    assert (load ls = Throw SyntaxError) as Hload.
    { by rewrite (load_present ls text), Hparse. }
    split; [done|]. unfold mount. by rewrite Hload.
Qed.

Lemma load_outcomes_witness :
  (getItem "tasks" (∅ : Storage) = None ∨ getItem "tasks" (∅ : Storage) = Some "")
  ∧ load ∅ = Return (JSON.Arr [])
  ∧ load corrupted = Throw SyntaxError.
Proof.
  assert (getItem "tasks" (∅ : Storage) = None
          ∨ getItem "tasks" (∅ : Storage) = Some "") as Habs by (by left).
  destruct (load_outcomes ∅) as [Hempty _].
  destruct (Hempty Habs) as [Hload _].
  destruct (load_outcomes corrupted) as [_ Hthrow].
  destruct (Hthrow "{oops") as [Hcorr _]; [done..|].
  split_and!; [exact Habs | exact Hload | exact Hcorr].
Defined.

(** ** The mirror in localStorage *)

Lemma saveTasks_lookup (s : AppState) (ls : Storage) :
  getItem "tasks" (saveTasks s ls) = Some (stringify (tasks s)).
Proof. unfold getItem, saveTasks, setItem. apply lookup_insert_eq. Qed.

Lemma saveTasks_other (s : AppState) (ls : Storage) (key : string) :
  key ≠ "tasks" → getItem key (saveTasks s ls) = getItem key ls.
Proof. intros Hne. unfold getItem, saveTasks, setItem. by rewrite lookup_insert_ne. Qed.

(** C9: after a deletion, and after a submission that is accepted (whether
    it creates or updates), what is stored under the key is the
    serialisation of the whole list the component now holds, and no other
    key of the storage has changed. *)
Theorem mutation_rewrites_mirror (ev : Event) (w : World) :
  (∃ id, ev = DeleteRequested id)
  ∨ (∃ now, ev = Submit now ∧ taskName (app w) ≠ "" ∧ dueDate (app w) ≠ "") →
  ∃ w', step ev w = Running w'
        ∧ app w' = handle ev (app w)
        ∧ getItem "tasks" (storage w') = Some (stringify (tasks (app w')))
        ∧ ∀ key, key ≠ "tasks" → getItem key (storage w') = getItem key (storage w).
Proof.
  intros [[id ->] | (now & -> & Hn & Hd)].
  - eexists. split; [done|]. simpl.
    split_and!; [done | apply saveTasks_lookup | apply saveTasks_other].
  - eexists. split; [done|]. simpl.
    rewrite (proj2 (rejects_false (app w)) (conj Hn Hd)). simpl.
    split_and!; [done | apply saveTasks_lookup | apply saveTasks_other].
Qed.

Lemma mutation_rewrites_mirror_witness :
  let w := mkWorld (filling [taskA]) leftByA in
  ((∃ id, Submit 1700000000500 = DeleteRequested id)
   ∨ (∃ now, Submit 1700000000500 = Submit now
             ∧ taskName (app w) ≠ "" ∧ dueDate (app w) ≠ ""))
  ∧ ∃ w', step (Submit 1700000000500) w = Running w'
          ∧ tasks (app w') = [taskA; taskB]
          ∧ getItem "tasks" (storage w') = Some (stringify [taskA; taskB]).
Proof.
  intros w.
  assert ((∃ id, Submit 1700000000500 = DeleteRequested id)
          ∨ (∃ now, Submit 1700000000500 = Submit now
                    ∧ taskName (app w) ≠ "" ∧ dueDate (app w) ≠ "")) as Hev.
  { right. exists 1700000000500%Z. done. }
  split; [exact Hev|].
  destruct (mutation_rewrites_mirror _ w Hev) as (w' & Hstep & Happ & Hget & _).
  exists w'. split; [exact Hstep|].
  assert (tasks (app w') = [taskA; taskB]) as Hts by (by rewrite Happ).
  split; [exact Hts|]. by rewrite Hget, Hts.
Defined.

(** ** Ids stay unique *)

(** Opening the page again on an up-to-date mirror gives back the same
    list, with the form at rest, and leaves the storage as it is. *)
Lemma mount_synced (w : World) :
  synced w →
  mount (storage w) = Running (mkWorld (idle (tasks (app w))) (storage w)).
Proof.
  unfold synced. intros Hsync. unfold mount.
  rewrite (load_present _ _ Hsync) by (by intros E; discriminate E).
  rewrite parse_stringify, asTasks_encode. unfold idle. simpl.
  do 2 f_equal. unfold saveTasks, setItem. by apply insert_id.
Qed.

Lemma mount_is_synced (ls : Storage) (w : World) :
  mount ls = Running w → synced w.
Proof.
  unfold mount. destruct (load ls) as [v|e]; [|done].
  destruct (asTasks v) as [ts|]; [|done].
  intros [= <-]. apply saveTasks_lookup.
Qed.

Lemma notAfter_later (t t' : Z) (ts : list Task) :
  (t ≤ t')%Z → notAfter t ts → notAfter t' ts.
Proof.
  intros Hle Hst. unfold notAfter. eapply Forall_impl; [exact Hst|].
  intros k Hk u Hid. specialize (Hk u Hid). lia.
Qed.

(** An id read from the clock after [t] is not among ids none of which is
    a reading later than [t]. *)
Lemma notAfter_fresh (t now : Z) (ts : list Task) :
  notAfter t ts → (t < now)%Z → pretty now ∉ ids ts.
Proof.
  unfold notAfter, ids. rewrite Forall_forall.
  intros Hst Hlt (k & Hid & Hk)%list_elem_of_fmap.
  specialize (Hst k Hk now (eq_sym Hid)). lia.
Qed.

(** The decimal of a positive number starts with a digit. *)
Lemma pretty_N_go_head (x : N) (s : string) :
  (0 < x)%N →
  ∃ d s', (d < 10)%N ∧ pretty_N_go x s = String (pretty_N_char d) s'.
Proof.
  revert s. induction (N.lt_wf_0 x) as [x _ IH]. intros s Hx.
  rewrite pretty_N_go_step by done.
  destruct (decide (x `div` 10 = 0)%N) as [Hz|Hnz].
  - rewrite Hz, pretty_N_go_0. exists (x `mod` 10)%N, s.
    split; [by apply N.mod_lt | done].
  - apply IH; [apply N.div_lt; lia | by apply N.neq_0_lt_0].
Qed.

(** A string that starts with a letter is the decimal of no whole
    number. *)
Lemma letter_not_decimal (c : ascii) (s : string) (u : Z) :
  (97 ≤ N_of_ascii c)%N → String c s ≠ pretty u.
Proof.
  intros Hc Heq. unfold pretty, pretty_Z in Heq.
  assert (∀ p, String c s ≠ pretty (Npos p)) as Hpos.
  { intros p Hp. unfold pretty, pretty_N in Hp. simpl in Hp.
    destruct (pretty_N_go_head (Npos p) "") as (d & s' & Hd & Hgo); [lia|].
    rewrite Hgo in Hp. injection Hp as -> _. revert Hc.
    unfold pretty_N_char. repeat case_match; vm_compute; congruence. }
  destruct u as [|p|p].
  - injection Heq as -> _. revert Hc. vm_compute. congruence.
  - by apply (Hpos p).
  - injection Heq as -> _. revert Hc. vm_compute. congruence.
Qed.

Lemma ids_filter_sublist (P : Task → Prop) `{!∀ k, Decision (P k)} (ts : list Task) :
  ids (filter P ts) `sublist_of` ids ts.
Proof.
  unfold ids. induction ts as [|k ts IH]; [done|].
  rewrite filter_cons. case_decide; rewrite !fmap_cons.
  - by apply sublist_skip.
  - by apply sublist_cons.
Qed.

Lemma tasks_accepted (now : Z) (s : AppState) :
  rejects s = false →
  tasks (addOrUpdateTask now s) =
    match editingTask s with
    | Some e =>
        (λ t, if bool_decide (Task.id t = Task.id e) then newTask now s else t)
          <$> tasks s
    | None => tasks s ++ [newTask now s]
    end.
Proof. intros Hrej. unfold addOrUpdateTask. by rewrite Hrej. Qed.

Lemma newTask_id (now : Z) (s : AppState) :
  Task.id (newTask now s) =
    match editingTask s with Some e => Task.id e | None => pretty now end.
Proof. done. Qed.

Lemma invariant_same_tasks (t : Z) (w : World) (s : AppState) :
  invariant t w → tasks s = tasks (app w) → invariant t (mkWorld s (storage w)).
Proof.
  unfold invariant, synced. simpl. intros (Hnd & Hst & Hsync) ->. done.
Qed.

Lemma submit_invariant (now t : Z) (w : World) :
  invariant t w →
  match reading (Submit now) (app w) with
  | Some now => (t < now)%Z
  | None => True
  end →
  invariant (default t (reading (Submit now) (app w)))
    (mkWorld (addOrUpdateTask now (app w))
       (if setsTasks (Submit now) (app w)
        then saveTasks (addOrUpdateTask now (app w)) (storage w)
        else storage w)).
Proof.
  intros Hinv. unfold reading, setsTasks.
  destruct (rejects (app w)) eqn:Hrej.
  { intros _. apply invariant_same_tasks; [done|].
    unfold addOrUpdateTask. by rewrite Hrej. }
  destruct Hinv as (Hnd & Hst & _).
  unfold invariant, synced. cbn [negb app storage].
  destruct (editingTask (app w)) as [e|] eqn:He;
    unfold default, from_option, Datatypes.id; intros Hclock.
  - split_and!; [| |apply saveTasks_lookup]; rewrite tasks_accepted, He by done.
    + rewrite replace_keeps_ids; [done|]. by rewrite newTask_id, He.
    + unfold notAfter. rewrite Forall_fmap. eapply Forall_impl; [exact Hst|].
      intros k Hk. simpl. case_bool_decide as Hid; [|done].
      intros u. rewrite newTask_id, He, <-Hid. apply Hk.
  - split_and!; [| |apply saveTasks_lookup]; rewrite tasks_accepted, He by done.
    + unfold ids. rewrite fmap_app. cbn [fmap list_fmap].
      rewrite newTask_id, He.
      apply NoDup_app. split_and!; [done| |apply NoDup_singleton].
      intros i Hi ->%list_elem_of_singleton.
      by apply (notAfter_fresh t now) in Hi.
    + unfold notAfter. apply Forall_app. split.
      * apply notAfter_later with t; [lia | done].
      * apply Forall_singleton. intros u. rewrite newTask_id, He.
        intros ->%(inj pretty). lia.
Qed.

Lemma delete_invariant (id : string) (t : Z) (w : World) :
  invariant t w →
  invariant t
    (mkWorld (deleteTask id (app w)) (saveTasks (deleteTask id (app w)) (storage w))).
Proof.
  intros (Hnd & Hst & _). unfold invariant, synced. cbn [app storage].
  split_and!; [| |apply saveTasks_lookup]; rewrite deleteTask_tasks.
  - eapply sublist_NoDup; [exact Hnd | apply ids_filter_sublist].
  - unfold notAfter in *. rewrite Forall_forall in *.
    intros k Hk%list_elem_of_filter. apply Hst. tauto.
Qed.

Lemma step_invariant (ev : Event) (t : Z) (w : World) :
  invariant t w →
  match reading ev (app w) with Some now => (t < now)%Z | None => True end →
  ∃ w', step ev w = Running w'
        ∧ invariant (default t (reading ev (app w))) w'.
Proof.
  intros Hinv Hclock.
  destruct ev as [now| |task|id|v|v|v|].
  - eexists. split; [done|]. by apply submit_invariant.
  - eexists. split; [done|]. by apply invariant_same_tasks.
  - eexists. split; [done|]. by apply invariant_same_tasks.
  - eexists. split; [done|]. by apply delete_invariant.
  - eexists. split; [done|]. by apply invariant_same_tasks.
  - eexists. split; [done|]. by apply invariant_same_tasks.
  - eexists. split; [done|]. by apply invariant_same_tasks.
  - unfold step. rewrite mount_synced by apply Hinv.
    eexists. split; [done|]. by apply invariant_same_tasks.
Qed.

(** C8 as stated fails: from a list with distinct ids, a single creation
    made while the clock reads what it read for a task of the list gives
    two tasks one id.  There is one creation only, so nothing is asked of
    the clock between creations. *)
Lemma clock_repeats_stored_id :
  let w := mkWorld (idle [taskA]) leftByA in
  mount leftByA = Running w
  ∧ NoDup (ids (tasks (app w)))
  ∧ advancing 0 clash w
  ∧ ∃ w', run clash w = Running w'
          ∧ ids (tasks (app w')) = ["1700000000000"; "1700000000000"]
          ∧ ¬ NoDup (ids (tasks (app w'))).
Proof.
  intros w. split_and!.
  - vm_compute. reflexivity.
  - apply NoDup_singleton.
  - vm_compute. repeat split.
  - eexists. split_and!; [vm_compute; reflexivity | vm_compute; reflexivity |].
    intros Hnd. apply (bool_decide_pack _) in Hnd. by vm_compute in Hnd.
Qed.

(** C8, amended: take a running component whose stored copy is up to
    date, whose ids are distinct and none of whose ids is the decimal of
    a clock reading later than [t] (an id that is not a decimal at all
    qualifies), and let each creation read the clock later than the
    creation before it and than [t].  Whatever the user then does (submit
    on the create or the update path, delete, edit, cancel, type, open
    the page again), the ids of the list stay distinct. *)
Theorem ids_stay_unique (w : World) (t : Z) (evs : list Event) :
  synced w →
  NoDup (ids (tasks (app w))) →
  notAfter t (tasks (app w)) →
  advancing t evs w →
  ∃ w', run evs w = Running w'
        ∧ NoDup (ids (tasks (app w')))
        ∧ (∀ k1 k2, k1 ∈ tasks (app w') → k2 ∈ tasks (app w') →
             Task.id k1 = Task.id k2 → k1 = k2).
Proof.
  intros Hsync Hnd Hst Hadv.
  assert (invariant t w) as Hinv by done.
  clear Hsync Hnd Hst.
  assert (∃ w', run evs w = Running w' ∧ NoDup (ids (tasks (app w'))))
    as (w' & Hrun & Hnd').
  { revert w t Hinv Hadv. induction evs as [|ev evs IH]; intros w t Hinv Hadv.
    - exists w. split; [done|]. apply Hinv.
    - destruct Hadv as [Hclock Hadv].
      destruct (step_invariant ev t w Hinv Hclock) as (w1 & Hstep & Hinv1).
      simpl. rewrite Hstep in Hadv |- *. by eapply IH. }
  exists w'. split_and!; [done | done |].
  intros k1 k2 H1 H2 Hid.
  apply list_elem_of_lookup in H1 as [i1 H1].
  apply list_elem_of_lookup in H2 as [i2 H2].
  assert (i1 = i2) as ->; [|congruence].
  eapply NoDup_lookup; [exact Hnd' | |].
  - unfold ids. rewrite list_lookup_fmap, H1. done.
  - unfold ids. rewrite list_lookup_fmap, H2. simpl. by rewrite Hid.
Qed.

Lemma ids_stay_unique_witness :
  let w := mkWorld (idle [legacy; taskA])
             {["tasks" := stringify [legacy; taskA]]} in
  synced w
  ∧ NoDup (ids (tasks (app w)))
  ∧ notAfter 1700000000000 (tasks (app w))
  ∧ advancing 1700000000000 session w
  ∧ ∃ w', run session w = Running w' ∧ NoDup (ids (tasks (app w'))).
Proof.
  intros w.
  assert (synced w) as Hsync by (vm_compute; reflexivity).
  assert (NoDup (ids (tasks (app w)))) as Hnd by decide_now.
  assert (notAfter 1700000000000 (tasks (app w))) as Hst.
  { apply Forall_cons. split; [|apply Forall_singleton]; intros u Hu.
    - exfalso. revert Hu. apply letter_not_decimal. vm_compute. discriminate.
    - change (Task.id taskA) with (pretty 1700000000000%Z) in Hu.
      apply (inj pretty) in Hu. lia. }
  assert (advancing 1700000000000 session w) as Hadv.
  { vm_compute. repeat split. }
  destruct (ids_stay_unique w _ session Hsync Hnd Hst Hadv)
    as (w' & Hrun & Hnd' & _).
  split_and!; [exact Hsync | exact Hnd | exact Hst | exact Hadv |].
  exists w'. split; [exact Hrun | exact Hnd'].
Defined.

(** Where the sample session ends. *)
Example session_end :
  ∃ w', run session (mkWorld (idle [taskA]) leftByA) = Running w'
        ∧ tasks (app w')
          = [Task.mk "1700000000000" "Write spec" High "2024-01-01"; taskC]
        ∧ getItem "tasks" (storage w') = Some (stringify (tasks (app w'))).
Proof. eexists. split_and!; vm_compute; reflexivity. Qed.

(** * Further properties of the handlers *)

Lemma ids_determine (ts : list Task) (k1 k2 : Task) :
  NoDup (ids ts) → k1 ∈ ts → k2 ∈ ts → Task.id k1 = Task.id k2 → k1 = k2.
Proof.
  intros Hnd H1 H2 Hid.
  apply list_elem_of_lookup in H1 as [i1 H1].
  apply list_elem_of_lookup in H2 as [i2 H2].
  assert (i1 = i2) as ->; [|congruence].
  eapply NoDup_lookup; [exact Hnd | |].
  - unfold ids. by rewrite list_lookup_fmap, H1.
  - unfold ids. rewrite list_lookup_fmap, H2. simpl. by rewrite Hid.
Qed.

Lemma rejects_resetForm (s : AppState) : rejects (resetForm s) = true.
Proof. done. Qed.

(** X1: submitting twice in a row is submitting once.  Whatever the first
    submission did, it leaves a form the second one rejects, so the second
    changes neither the state nor the stored copy. *)
Theorem second_submission_is_rejected (now1 now2 : Z) (w : World) :
  addOrUpdateTask now2 (addOrUpdateTask now1 (app w)) = addOrUpdateTask now1 (app w)
  ∧ ∃ w1, step (Submit now1) w = Running w1 ∧ step (Submit now2) w1 = Running w1.
Proof.
  assert (rejects (addOrUpdateTask now1 (app w)) = true) as Hrej.
  { unfold addOrUpdateTask. destruct (rejects (app w)) eqn:Hr; [done|].
    apply rejects_resetForm. }
  assert (addOrUpdateTask now2 (addOrUpdateTask now1 (app w))
          = addOrUpdateTask now1 (app w)) as Hsame.
  { unfold addOrUpdateTask at 1. by rewrite Hrej. }
  split; [done|]. eexists. split; [done|].
  unfold step at 1. cbn [handle setsTasks app storage].
  by rewrite Hsame, Hrej.
Qed.

Lemma newTask_editTask (now : Z) (t : Task) (s : AppState) :
  newTask now (editTask t s) = t.
Proof. by destruct t. Qed.

(** X2: opening a listed task for editing and submitting it as it is
    leaves the list unchanged, provided the ids of the list are distinct.
    If the task is well formed the form returns to rest; if its name or
    due date is empty the submission is rejected and the form stays on
    the task. *)
Theorem edit_then_submit_unchanged (now : Z) (s : AppState) (t : Task) :
  t ∈ tasks s → NoDup (ids (tasks s)) →
  tasks (addOrUpdateTask now (editTask t s)) = tasks s
  ∧ (wellFormed t → addOrUpdateTask now (editTask t s) = idle (tasks s))
  ∧ (¬ wellFormed t → addOrUpdateTask now (editTask t s) = editTask t s).
Proof.
  intros Hin Hnd.
  assert ((λ k, if bool_decide (Task.id k = Task.id t) then t else k) <$> tasks s
          = tasks s) as Hmap.
  { rewrite <-(list_fmap_id (tasks s)) at 2. apply list_fmap_ext.
    intros i k Hk. simpl. case_bool_decide as Hid; [|done].
    symmetry. apply (ids_determine (tasks s)); [done| |done|done].
    apply list_elem_of_lookup. eauto. }
  assert (rejects (editTask t s) = false →
          addOrUpdateTask now (editTask t s) = idle (tasks s)) as Hacc.
  { intros Hrej. unfold addOrUpdateTask. rewrite Hrej, newTask_editTask.
    unfold resetForm, setTasks, idle. simpl. by rewrite Hmap. }
  split_and!.
  - destruct (rejects (editTask t s)) eqn:Hrej.
    + unfold addOrUpdateTask. by rewrite Hrej.
    + by rewrite Hacc.
  - intros Hwf. apply Hacc. by apply rejects_false.
  - intros Hwf. unfold addOrUpdateTask.
    destruct (rejects (editTask t s)) eqn:Hrej; [done|].
    by apply rejects_false in Hrej.
Qed.

Lemma edit_then_submit_unchanged_witness :
  taskA ∈ tasks (filling [taskB; taskA])
  ∧ NoDup (ids (tasks (filling [taskB; taskA])))
  ∧ tasks (addOrUpdateTask 9 (editTask taskA (filling [taskB; taskA])))
    = [taskB; taskA]
  ∧ addOrUpdateTask 9 (editTask unnamed (idle [unnamed])) = editTask unnamed (idle [unnamed]).
Proof.
  assert (taskA ∈ tasks (filling [taskB; taskA])) as Hin by decide_now.
  assert (NoDup (ids (tasks (filling [taskB; taskA])))) as Hnd by decide_now.
  destruct (edit_then_submit_unchanged 9 _ taskA Hin Hnd) as (Hts & _).
  destruct (edit_then_submit_unchanged 9 (idle [unnamed]) unnamed)
    as (_ & _ & Hstay); [decide_now | decide_now |].
  split_and!; [exact Hin | exact Hnd | exact Hts |].
  apply Hstay. intros [Hname _]. by apply Hname.
Defined.

Lemma filter_other_id (id : string) (t : Task) :
  Task.id t = id → filter (λ task, Task.id task ≠ id) [t] = [].
Proof. intros Hid. by rewrite filter_cons_False, filter_nil by (by intros H). Qed.

(** X3: deleting the task just created undoes the creation, provided the
    id the clock gave it was not already in the list.  (When it was, the
    deletion also removes the older task of that id.) *)
Theorem create_then_delete_undoes (now : Z) (s : AppState) :
  taskName s ≠ "" → dueDate s ≠ "" → editingTask s = None →
  pretty now ∉ ids (tasks s) →
  deleteTask (pretty now) (addOrUpdateTask now s) = idle (tasks s).
Proof.
  intros Hn Hd He Hfresh.
  rewrite addOrUpdateTask_accepted by done. rewrite He.
  unfold deleteTask, resetForm, setTasks, idle. simpl. f_equal.
  rewrite filter_app, filter_absent by done.
  rewrite filter_other_id; [by rewrite app_nil_r|].
  unfold newTask. by rewrite He.
Qed.

Lemma create_then_delete_undoes_witness :
  taskName (filling [taskA]) ≠ "" ∧ dueDate (filling [taskA]) ≠ ""
  ∧ editingTask (filling [taskA]) = None
  ∧ (pretty 1700000000500%Z ∉ ids (tasks (filling [taskA])))
  ∧ deleteTask "1700000000500" (addOrUpdateTask 1700000000500 (filling [taskA]))
    = idle [taskA].
Proof.
  assert (taskName (filling [taskA]) ≠ "") as Hn by done.
  assert (dueDate (filling [taskA]) ≠ "") as Hd by done.
  assert (editingTask (filling [taskA]) = None) as He by done.
  assert (pretty 1700000000500%Z ∉ ids (tasks (filling [taskA]))) as Hf
    by decide_now.
  split_and!; [done..|].
  exact (create_then_delete_undoes 1700000000500 _ Hn Hd He Hf).
Defined.

(** X4: when the ids of the list are distinct, deleting an id that is in
    the list removes exactly one task, the one with that id, and keeps the
    tasks before and after it in place. *)
Theorem delete_removes_exactly_one (id : string) (s : AppState) :
  NoDup (ids (tasks s)) → id ∈ ids (tasks s) →
  ∃ before t after,
    tasks s = before ++ t :: after
    ∧ Task.id t = id
    ∧ tasks (deleteTask id s) = before ++ after
    ∧ S (length (tasks (deleteTask id s))) = length (tasks s).
Proof.
  intros Hnd Hin. unfold ids in Hin.
  apply list_elem_of_fmap in Hin as (t & -> & Ht).
  apply list_elem_of_split in Ht as (before & after & Hsplit).
  exists before, t, after.
  assert (tasks (deleteTask (Task.id t) s) = before ++ after) as Hdel.
  { rewrite deleteTask_tasks, Hsplit.
    rewrite Hsplit in Hnd. unfold ids in Hnd.
    rewrite fmap_app, fmap_cons in Hnd.
    apply NoDup_app in Hnd as (_ & Hdisj & Hnd).
    apply NoDup_cons in Hnd as (Hafter & _).
    rewrite filter_app, filter_cons_False by (by intros H).
    rewrite !filter_absent; [done | done |].
    intros Hb. apply (Hdisj _ Hb). left. }
  split_and!; [done | done | done |].
  rewrite Hdel, Hsplit, !length_app. simpl. lia.
Qed.

Lemma delete_removes_exactly_one_witness :
  NoDup (ids (tasks (idle [taskA; taskB; taskC])))
  ∧ "1700000000500" ∈ ids (tasks (idle [taskA; taskB; taskC]))
  ∧ ∃ before t after,
      tasks (idle [taskA; taskB; taskC]) = before ++ t :: after
      ∧ Task.id t = "1700000000500"
      ∧ tasks (deleteTask "1700000000500" (idle [taskA; taskB; taskC]))
        = before ++ after
      ∧ S (length (tasks (deleteTask "1700000000500" (idle [taskA; taskB; taskC]))))
        = length (tasks (idle [taskA; taskB; taskC])).
Proof.
  assert (NoDup (ids (tasks (idle [taskA; taskB; taskC])))) as Hnd by decide_now.
  assert ("1700000000500" ∈ ids (tasks (idle [taskA; taskB; taskC]))) as Hin
    by decide_now.
  split_and!; [exact Hnd | exact Hin |].
  exact (delete_removes_exactly_one _ _ Hnd Hin).
Defined.

(** X5: when two tasks share an id, deleting that id removes both, and
    saving an edit of one of them overwrites both with the same values:
    the handlers address tasks by id only. *)
Theorem shared_id_is_one_task (now : Z) (s : AppState) (t1 t2 : Task) :
  t1 ∈ tasks s → t2 ∈ tasks s → Task.id t1 = Task.id t2 →
  (t1 ∉ tasks (deleteTask (Task.id t2) s))
  ∧ (taskName s ≠ "" → dueDate s ≠ "" → editingTask s = Some t2 →
     ∀ i, tasks s !! i = Some t1 →
          tasks (addOrUpdateTask now s) !! i
          = Some (Task.mk (Task.id t2) (taskName s) (priority s) (dueDate s))).
Proof.
  intros H1 H2 Hid. split.
  - rewrite deleteTask_tasks, list_elem_of_filter. tauto.
  - intros Hn Hd He i Hi.
    rewrite addOrUpdateTask_accepted by done. rewrite He.
    unfold resetForm, setTasks. simpl.
    rewrite list_lookup_fmap, Hi. simpl.
    rewrite bool_decide_eq_true_2 by done.
    unfold newTask. by rewrite He.
Qed.

Lemma shared_id_is_one_task_witness :
  taskA ∈ tasks (idle [taskA; taskB; twinA])
  ∧ twinA ∈ tasks (idle [taskA; taskB; twinA])
  ∧ Task.id taskA = Task.id twinA
  ∧ tasks (deleteTask (Task.id twinA) (idle [taskA; taskB; twinA])) = [taskB]
  ∧ (taskA ∉ tasks (deleteTask (Task.id twinA) (idle [taskA; taskB; twinA]))).
Proof.
  assert (taskA ∈ tasks (idle [taskA; taskB; twinA])) as H1 by decide_now.
  assert (twinA ∈ tasks (idle [taskA; taskB; twinA])) as H2 by decide_now.
  assert (Task.id taskA = Task.id twinA) as Hid by done.
  destruct (shared_id_is_one_task 0 _ taskA twinA H1 H2 Hid) as [Hdel _].
  split_and!; [exact H1 | exact H2 | exact Hid | done | exact Hdel].
Defined.

(** X6: deletions commute: the order in which two ids are deleted does not
    matter for the resulting state. *)
Theorem deletions_commute (id1 id2 : string) (s : AppState) :
  deleteTask id1 (deleteTask id2 s) = deleteTask id2 (deleteTask id1 s).
Proof.
  unfold deleteTask, setTasks. simpl. f_equal.
  rewrite !list_filter_filter. apply list_filter_iff. tauto.
Qed.

(** X7: a creation keeps the ids of the list distinct exactly when they
    were distinct and the decimal of the clock reading is not yet an id of
    the list; a reading that repeats an id produces a duplicate. *)
Theorem create_unique_iff_fresh (now : Z) (s : AppState) :
  taskName s ≠ "" → dueDate s ≠ "" → editingTask s = None →
  (NoDup (ids (tasks (addOrUpdateTask now s)))
   ↔ NoDup (ids (tasks s)) ∧ pretty now ∉ ids (tasks s)).
Proof.
  intros Hn Hd He.
  rewrite tasks_accepted by (by apply rejects_false). rewrite He.
  unfold ids. rewrite fmap_app. cbn [fmap list_fmap].
  rewrite newTask_id, He, NoDup_app. split.
  - intros (Hnd & Hdisj & _). split; [done|].
    intros Hin. apply (Hdisj _ Hin). left.
  - intros (Hnd & Hfresh). split_and!; [done| |apply NoDup_singleton].
    by intros i Hi ->%list_elem_of_singleton.
Qed.

Lemma create_unique_iff_fresh_witness :
  taskName (filling [taskA]) ≠ "" ∧ dueDate (filling [taskA]) ≠ ""
  ∧ editingTask (filling [taskA]) = None
  ∧ NoDup (ids (tasks (addOrUpdateTask 1700000000500 (filling [taskA]))))
  ∧ ¬ NoDup (ids (tasks (addOrUpdateTask 1700000000000 (filling [taskA])))).
Proof.
  assert (taskName (filling [taskA]) ≠ "") as Hn by done.
  assert (dueDate (filling [taskA]) ≠ "") as Hd by done.
  assert (editingTask (filling [taskA]) = None) as He by done.
  split_and!; [done..| |].
  - apply (create_unique_iff_fresh 1700000000500 _ Hn Hd He).
    split; decide_now.
  - intros Hnd.
    apply (create_unique_iff_fresh 1700000000000 _ Hn Hd He) in Hnd as [_ Hfresh].
    apply Hfresh. decide_now.
Defined.

(** * Further properties of the component and its storage *)

(** X8: what the effect stores, the initialiser reads back.  Starting the
    component on a storage the effect has written gives exactly the list
    that was saved, with the form at rest, and leaves the storage as it
    is; neither the escaping of names nor the order of the tasks is lost
    on the way. *)
Theorem saved_list_is_loaded (s : AppState) (ls : Storage) :
  load (saveTasks s ls) = Return (encode (tasks s))
  ∧ mount (saveTasks s ls) = Running (mkWorld (idle (tasks s)) (saveTasks s ls)).
Proof.
  assert (synced (mkWorld s (saveTasks s ls))) as Hsync by apply saveTasks_lookup.
  split.
  - rewrite (load_present (saveTasks s ls) (stringify (tasks s)));
      [by rewrite parse_stringify | exact Hsync | by intros E; discriminate E].
  - apply (mount_synced _ Hsync).
Qed.

(** One event from a world whose stored copy is up to date. *)
Lemma step_synced (ev : Event) (w : World) :
  synced w →
  ∃ w', step ev w = Running w'
        ∧ synced w'
        ∧ tasks (app w') = tasks (handle ev (app w))
        ∧ ∀ key, key ≠ "tasks" → getItem key (storage w') = getItem key (storage w).
Proof.
  intros Hsync.
  assert (∀ s, tasks s = tasks (app w) → synced (mkWorld s (storage w))) as Hkeep.
  { intros s Hs. unfold synced. simpl. by rewrite Hs. }
  destruct ev as [now| |task|id|v|v|v|].
  - eexists. split; [done|]. cbn [handle setsTasks app storage].
    destruct (rejects (app w)) eqn:Hrej; cbn [negb].
    + unfold addOrUpdateTask. rewrite Hrej. by split_and!.
    + split_and!; [apply saveTasks_lookup | done | apply saveTasks_other].
  - eexists. split; [done|]. split_and!; [by apply Hkeep | done | done].
  - eexists. split; [done|]. split_and!; [by apply Hkeep | done | done].
  - eexists. split; [done|].
    split_and!; [apply saveTasks_lookup | done | apply saveTasks_other].
  - eexists. split; [done|]. split_and!; [by apply Hkeep | done | done].
  - eexists. split; [done|]. split_and!; [by apply Hkeep | done | done].
  - eexists. split; [done|]. split_and!; [by apply Hkeep | done | done].
  - unfold step. rewrite mount_synced by done.
    eexists. split; [done|]. split_and!; [by apply Hkeep | done | done].
Qed.

(** A property of task lists that every handler keeps is kept by every
    run from a world whose stored copy is up to date, and the run never
    stops. *)
Lemma run_synced (P : list Task → Prop) (evs : list Event) (w : World) :
  (∀ ev s, P (tasks s) → P (tasks (handle ev s))) →
  synced w → P (tasks (app w)) →
  ∃ w', run evs w = Running w'
        ∧ synced w'
        ∧ P (tasks (app w'))
        ∧ ∀ key, key ≠ "tasks" → getItem key (storage w') = getItem key (storage w).
Proof.
  intros Hkeep. revert w. induction evs as [|ev evs IH]; intros w Hsync HP.
  - exists w. by split_and!.
  - destruct (step_synced ev w Hsync) as (w1 & Hstep & Hsync1 & Hts & Hkeys).
    destruct (IH w1 Hsync1) as (w' & Hrun & Hsync' & HP' & Hkeys').
    { rewrite Hts. by apply Hkeep. }
    exists w'. simpl. rewrite Hstep.
    split_and!; [done..|]. intros key Hkey. by rewrite Hkeys', Hkeys.
Qed.

Lemma mount_other_keys (ls : Storage) (w : World) (key : string) :
  mount ls = Running w → key ≠ "tasks" →
  getItem key (storage w) = getItem key ls.
Proof.
  unfold mount. destruct (load ls) as [v|e]; [|done].
  destruct (asTasks v) as [ts|]; [|done].
  intros [= <-] Hkey. by apply saveTasks_other.
Qed.

(** X9: the stored copy follows the list through a whole session.  Take
    a component whose stored copy is up to date and any sequence of
    events it gets through (the model has no failing [setItem] and no
    failing render, so nothing is said of a session one of them ends).
    At the end the value stored under the key is the serialisation of
    the list on screen, every other key of the storage is what it was,
    and opening the page again gives the same list with the form at
    rest. *)
Theorem session_keeps_mirror (w w' : World) (evs : list Event) :
  synced w →
  run evs w = Running w' →
  getItem "tasks" (storage w') = Some (stringify (tasks (app w')))
  ∧ (∀ key, key ≠ "tasks" → getItem key (storage w') = getItem key (storage w))
  ∧ step Reload w' = Running (mkWorld (idle (tasks (app w'))) (storage w')).
Proof.
  intros Hsync Hrun.
  destruct (run_synced (λ _, True) evs w) as (w1 & Hrun1 & Hsync1 & _ & Hkeys);
    [done | done | done |].
  rewrite Hrun in Hrun1. injection Hrun1 as <-.
  split_and!; [done | done |].
  unfold step. by apply mount_synced.
Qed.

Lemma session_keeps_mirror_witness :
  let w := mkWorld (idle [taskA]) leftByA in
  synced w
  ∧ run session w = Running sessionEnd
  ∧ getItem "tasks" (storage sessionEnd)
    = Some (stringify (tasks (app sessionEnd)))
  ∧ step Reload sessionEnd = Running sessionEnd.
Proof.
  intros w.
  assert (synced w) as Hsync by (vm_compute; reflexivity).
  assert (run session w = Running sessionEnd) as Hrun
    by (vm_compute; reflexivity).
  destruct (session_keeps_mirror w sessionEnd session Hsync Hrun)
    as (Hget & _ & Hreload).
  split_and!; [exact Hsync | exact Hrun | exact Hget | exact Hreload].
Defined.

Lemma handle_wellFormed (ev : Event) (s : AppState) :
  Forall wellFormed (tasks s) → Forall wellFormed (tasks (handle ev s)).
Proof.
  intros Hwf. destruct ev as [now| |task|id|v|v|v|]; try done.
  - cbn [handle]. destruct (rejects s) eqn:Hrej.
    { unfold addOrUpdateTask. by rewrite Hrej. }
    rewrite tasks_accepted by done.
    assert (wellFormed (newTask now s)) as Hnew.
    { by apply rejects_false in Hrej. }
    destruct (editingTask s) as [e|].
    + rewrite Forall_fmap. eapply Forall_impl; [exact Hwf|].
      intros k Hk. simpl. by case_bool_decide.
    + apply Forall_app. split; [done|]. by apply Forall_singleton.
  - cbn [handle]. rewrite deleteTask_tasks.
    rewrite Forall_forall in *. intros k Hk%list_elem_of_filter.
    apply Hwf. tauto.
Qed.

(** X10: the handlers never put a task with an empty name or an empty due
    date in the list.  If every task the component started with has a
    name and a due date, so has every task of the list after any sequence
    of events; in particular this holds from an empty storage. *)
Theorem tasks_stay_well_formed (ls : Storage) (w : World) (evs : list Event) :
  mount ls = Running w →
  Forall wellFormed (tasks (app w)) →
  ∃ w', run evs w = Running w' ∧ Forall wellFormed (tasks (app w')).
Proof.
  intros Hmount Hwf.
  destruct (run_synced (Forall wellFormed) evs w) as (w' & Hrun & _ & Hwf' & _);
    [apply handle_wellFormed | by eapply mount_is_synced | done |].
  by exists w'.
Qed.

Lemma tasks_stay_well_formed_witness :
  mount ∅ = Running (mkWorld (idle []) {["tasks" := "[]"]})
  ∧ Forall wellFormed (tasks (app (mkWorld (idle []) {["tasks" := "[]"]})))
  ∧ ∃ w', run session (mkWorld (idle []) {["tasks" := "[]"]}) = Running w'
          ∧ Forall wellFormed (tasks (app w')).
Proof.
  assert (mount ∅ = Running (mkWorld (idle []) {["tasks" := "[]"]})) as Hmount
    by (vm_compute; reflexivity).
  assert (Forall wellFormed (tasks (app (mkWorld (idle []) {["tasks" := "[]"]}))))
    as Hwf by constructor.
  split_and!; [exact Hmount | exact Hwf |].
  exact (tasks_stay_well_formed ∅ _ session Hmount Hwf).
Defined.

Lemma run_app (evs1 evs2 : list Event) (w : World) :
  run (evs1 ++ evs2) w =
    match run evs1 w with
    | Running w1 => run evs2 w1
    | o => o
    end.
Proof.
  revert w. induction evs1 as [|ev evs1 IH]; intros w; simpl; [done|].
  by destruct (step ev w).
Qed.

Lemma formOnly_handle (ev : Event) (s : AppState) :
  formOnly ev = true → tasks (handle ev s) = tasks s ∧ setsTasks ev s = false.
Proof. by destruct ev. Qed.

(** X11: typing, selecting a priority, opening a task for editing and
    cancelling never touch the list or the storage, however many such
    events follow each other.  A cancel at the end leaves the form at
    rest over the same list, and opening a task at the end leaves the
    form holding that task and its three fields, whatever was typed or
    opened before: the task selected last wins. *)
Theorem form_events_keep_the_store (evs : list Event) (w : World) (t : Task) :
  Forall (λ ev, formOnly ev = true) evs →
  (∃ s, run evs w = Running (mkWorld s (storage w)) ∧ tasks s = tasks (app w))
  ∧ run (evs ++ [Cancel]) w
    = Running (mkWorld (idle (tasks (app w))) (storage w))
  ∧ run (evs ++ [EditRequested t]) w
    = Running
        (mkWorld
           (mkApp (tasks (app w)) (Task.name t) (Task.priority t)
              (Task.dueDate t) (Some t))
           (storage w)).
Proof.
  intros Hform.
  assert (∃ s, run evs w = Running (mkWorld s (storage w))
               ∧ tasks s = tasks (app w)) as (s & Hrun & Hts).
  { revert w. induction Hform as [|ev evs Hev _ IH]; intros w.
    - exists (app w). by destruct w.
    - destruct (formOnly_handle ev (app w) Hev) as [Hts Hset].
      assert (step ev w = Running (mkWorld (handle ev (app w)) (storage w)))
        as Hstep.
      { destruct ev; try done; unfold step; by rewrite Hset. }
      destruct (IH (mkWorld (handle ev (app w)) (storage w))) as (s & Hrun & Hts').
      exists s. simpl in *. rewrite Hstep. split; [done | congruence]. }
  assert (∀ ev, run (evs ++ [ev]) w = step ev (mkWorld s (storage w))) as Hlast.
  { intros ev. rewrite run_app, Hrun. simpl.
    by destruct (step ev (mkWorld s (storage w))). }
  split_and!; [by exists s | |].
  - rewrite Hlast, <-Hts. done.
  - rewrite Hlast, <-Hts. done.
Qed.

Lemma form_events_keep_the_store_witness :
  let evs := [EditRequested taskA; NameChanged "x"; EditRequested taskB;
              PriorityChanged Low; DueDateChanged ""] in
  let w := mkWorld (filling [taskA; taskB]) leftByA in
  Forall (λ ev, formOnly ev = true) evs
  ∧ run (evs ++ [Cancel]) w = Running (mkWorld (idle [taskA; taskB]) leftByA)
  ∧ run (evs ++ [EditRequested taskC]) w
    = Running (mkWorld (editTask taskC (idle [taskA; taskB])) leftByA).
Proof.
  intros evs w.
  assert (Forall (λ ev, formOnly ev = true) evs) as Hform
    by (repeat constructor).
  destruct (form_events_keep_the_store evs w taskC Hform) as (_ & Hcancel & Hedit).
  split_and!; [exact Hform | exact Hcancel | exact Hedit].
Defined.

Lemma parse_empty : JSON.parse "" = None.
Proof. done. Qed.

(** X12: the initialiser does not look at what it parsed.  Whenever the
    stored text is JSON, [load] returns the parsed value as it is, be it a
    list of tasks or not: [null], a number or an object are returned, not
    replaced by the empty list. *)
Theorem load_returns_what_parses (ls : Storage) (stored : string) (v : JSON.value) :
  getItem "tasks" ls = Some stored → JSON.parse stored = Some v →
  load ls = Return v.
Proof.
  intros Hget Hparse.
  rewrite (load_present ls stored Hget), Hparse; [done|].
  intros ->. by rewrite parse_empty in Hparse.
Qed.

Lemma load_returns_what_parses_witness :
  getItem "tasks" ({["tasks" := "null"]} : Storage) = Some "null"
  ∧ JSON.parse "null" = Some JSON.Null
  ∧ load {["tasks" := "null"]} = Return JSON.Null.
Proof.
  assert (getItem "tasks" ({["tasks" := "null"]} : Storage) = Some "null")
    as Hget by done.
  assert (JSON.parse "null" = Some JSON.Null) as Hparse by done.
  split_and!; [exact Hget | exact Hparse |].
  exact (load_returns_what_parses _ _ _ Hget Hparse).
Defined.

(** * Further properties of the grouping *)

Lemma elem_of_sections (ts : list Task) (p : Priority) (b : list Task) :
  (p, b) ∈ sections ts ↔ b ≠ [] ∧ b = bucket p ts.
Proof.
  rewrite sections_unfold, list_elem_of_filter, list_elem_of_fmap. simpl. split.
  - by intros (Hne & q & [= -> ->] & _).
  - intros (Hne & ->). split; [done|]. exists p. split; [done|].
    unfold priorityOrder. destruct p; set_solver.
Qed.

Lemma bucket_app (p : Priority) (ts1 ts2 : list Task) :
  bucket p (ts1 ++ ts2) = bucket p ts1 ++ bucket p ts2.
Proof. apply filter_app. Qed.

Lemma bucket_filter (p : Priority) (P : Task → Prop) `{!∀ k, Decision (P k)}
    (ts : list Task) :
  bucket p (filter P ts) = filter P (bucket p ts).
Proof.
  unfold bucket. rewrite !list_filter_filter. apply list_filter_iff. tauto.
Qed.

(** X13: the list pane is never blank and never shows the message beside
    cards: the empty-state message is rendered exactly when no section
    is. *)
Theorem empty_message_iff_no_section (ts : list Task) :
  (emptyState ts = true ↔ sections ts = [])
  ∧ (emptyState ts = false ↔ ∃ p b, (p, b) ∈ sections ts).
Proof.
  split; [apply emptyState_sections|].
  rewrite <-not_true_iff_false, emptyState_sections. split.
  - intros Hne. destruct (sections ts) as [|[p b] secs]; [done|].
    exists p, b. left.
  - intros (p & b & Hin) Hnil. rewrite Hnil in Hin.
    by apply not_elem_of_nil in Hin.
Qed.

(** X14: a created task shows up as the last card of the section of the
    priority chosen in the form, a section that therefore exists after
    the creation; the groups of the other priorities are what they
    were. *)
Theorem created_card_ends_its_section (now : Z) (s : AppState) :
  taskName s ≠ "" → dueDate s ≠ "" → editingTask s = None →
  let created := Task.mk (pretty now) (taskName s) (priority s) (dueDate s) in
  let ts' := tasks (addOrUpdateTask now s) in
  groupedTasks ts' !! priority s
  = Some (bucket (priority s) (tasks s) ++ [created])
  ∧ (∀ p, p ≠ priority s → groupedTasks ts' !! p = groupedTasks (tasks s) !! p)
  ∧ (bucket (priority s) (tasks s) ++ [created] ≠ [] →
     (priority s, bucket (priority s) (tasks s) ++ [created]) ∈ sections ts').
Proof.
  intros Hn Hd He created ts'. subst ts'.
  rewrite tasks_accepted by (by apply rejects_false). rewrite He.
  assert (newTask now s = created) as ->.
  { unfold newTask. by rewrite He. }
  assert (∀ p, bucket p (tasks s ++ [created])
               = bucket p (tasks s)
                 ++ (if decide (priority s = p) then [created] else [])) as Hb.
  { intros p. rewrite bucket_app. by f_equal. }
  split_and!.
  - rewrite groupedTasks_lookup, Hb, decide_True by done.
    by destruct (bucket (priority s) (tasks s)).
  - intros p Hp. rewrite !groupedTasks_lookup, Hb, decide_False by done.
    by rewrite app_nil_r.
  - intros Hne. apply elem_of_sections. split; [done|].
    by rewrite Hb, decide_True.
Qed.

Lemma created_card_ends_its_section_witness :
  taskName (filling [taskA]) ≠ "" ∧ dueDate (filling [taskA]) ≠ ""
  ∧ editingTask (filling [taskA]) = None
  ∧ groupedTasks (tasks (addOrUpdateTask 1700000000500 (filling [taskA]))) !! High
    = Some [taskB]
  ∧ groupedTasks (tasks (addOrUpdateTask 1700000000500 (filling [taskA]))) !! Low
    = groupedTasks [taskA] !! Low.
Proof.
  assert (taskName (filling [taskA]) ≠ "") as Hn by done.
  assert (dueDate (filling [taskA]) ≠ "") as Hd by done.
  assert (editingTask (filling [taskA]) = None) as He by done.
  destruct (created_card_ends_its_section 1700000000500 _ Hn Hd He)
    as (Hown & Hother & _).
  split_and!; [done..| exact Hown |].
  by apply Hother.
Defined.

Lemma filter_all_of_id (id : string) (ts : list Task) :
  Forall (λ task, Task.id task = id) ts →
  filter (λ task, Task.id task ≠ id) ts = [].
Proof.
  induction 1 as [|k ks Hk _ IH]; [done|].
  by rewrite filter_cons_False by (by intros H).
Qed.

(** X15: after a deletion each section holds the cards it held, in the
    same order, without those of the deleted id; a section whose cards
    all had that id is no longer rendered. *)
Theorem deletion_thins_sections (id : string) (s : AppState) (p : Priority) :
  groupedTasks (tasks (deleteTask id s)) !! p
  = match filter (λ task, Task.id task ≠ id) (bucket p (tasks s)) with
    | [] => None
    | b => Some b
    end
  ∧ (∀ b, (p, b) ∈ sections (tasks (deleteTask id s))
          ↔ b ≠ [] ∧ b = filter (λ task, Task.id task ≠ id) (bucket p (tasks s)))
  ∧ (Forall (λ task, Task.id task = id) (bucket p (tasks s)) →
     ∀ b, (p, b) ∉ sections (tasks (deleteTask id s))).
Proof.
  assert (bucket p (tasks (deleteTask id s))
          = filter (λ task, Task.id task ≠ id) (bucket p (tasks s))) as Hb.
  { rewrite deleteTask_tasks. apply bucket_filter. }
  split_and!.
  - by rewrite groupedTasks_lookup, Hb.
  - intros b. by rewrite elem_of_sections, Hb.
  - intros Hall b. rewrite elem_of_sections, Hb. intros [Hne ->]. apply Hne.
    by apply filter_all_of_id.
Qed.




(** X17: the keys React is given are distinct among siblings.  The
    sections are keyed by their level and no level is rendered twice,
    whatever the list; the cards of a section are keyed by the task id,
    and when the ids of the list are distinct so are the keys of every
    section, and no id is rendered in two sections. *)
Theorem keys_are_distinct (ts : list Task) :
  NoDup (fst <$> sections ts)
  ∧ (NoDup (ids ts) →
     (∀ p b, (p, b) ∈ sections ts → NoDup (ids b))
     ∧ (∀ p1 b1 p2 b2 key,
          (p1, b1) ∈ sections ts → (p2, b2) ∈ sections ts →
          key ∈ ids b1 → key ∈ ids b2 → p1 = p2)).
Proof.
  split; [|intros Hnd; split].
  - rewrite sections_unfold. unfold priorityOrder. simpl.
    rewrite !filter_cons, filter_nil.
    repeat case_decide; simpl; decide_now.
  - intros p b [_ ->]%elem_of_sections.
    eapply sublist_NoDup; [exact Hnd | apply ids_filter_sublist].
  - intros p1 b1 p2 b2 key [_ ->]%elem_of_sections [_ ->]%elem_of_sections.
    unfold ids, bucket.
    intros (k1 & -> & [Hp1 Hk1]%list_elem_of_filter)%list_elem_of_fmap.
    intros (k2 & Hid & [Hp2 Hk2]%list_elem_of_filter)%list_elem_of_fmap.
    assert (k1 = k2) by (by apply (ids_determine ts)). congruence.
Qed.

Lemma keys_are_distinct_witness :
  NoDup (ids [taskA; taskB; taskC])
  ∧ NoDup (fst <$> sections [taskA; taskB; taskC])
  ∧ (∀ p b, (p, b) ∈ sections [taskA; taskB; taskC] → NoDup (ids b))
  ∧ NoDup (fst <$> sections [taskA; twinA]).
Proof.
  assert (NoDup (ids [taskA; taskB; taskC])) as Hnd by decide_now.
  destruct (keys_are_distinct [taskA; taskB; taskC]) as (Hlevels & Hcards).
  destruct (Hcards Hnd) as (Hin & _).
  destruct (keys_are_distinct [taskA; twinA]) as (Htwin & _).
  split_and!; [exact Hnd | exact Hlevels | exact Hin | exact Htwin].
Defined.

(** * The form's mode and what the submit button does *)

(** X18: the label of the submit button tells what a click can do.  Title,
    label and cancel button always agree on the mode.  Under "Update
    Task" a click never changes the number of tasks or any id, whether
    the submission is accepted or not and whether or not the edited task
    is still in the list; under "Add Task" it adds exactly one task when
    the form is filled in and nothing otherwise. *)
Theorem submit_label_tells_the_path (now : Z) (s : AppState) :
  (cancelShown s = true ↔ submitLabel s = "Update Task")
  ∧ (formTitle s = "Edit Task" ↔ submitLabel s = "Update Task")
  ∧ (submitLabel s = "Update Task" →
       length (tasks (addOrUpdateTask now s)) = length (tasks s)
       ∧ ids (tasks (addOrUpdateTask now s)) = ids (tasks s))
  ∧ (submitLabel s = "Add Task" →
       length (tasks (addOrUpdateTask now s))
       = if rejects s then length (tasks s) else S (length (tasks s))).
Proof.
  unfold cancelShown, submitLabel, formTitle.
  destruct (editingTask s) as [e|] eqn:He.
  - split_and!; [done | done | | done]. intros _.
    destruct (rejects s) eqn:Hrej.
    { unfold addOrUpdateTask. by rewrite Hrej. }
    rewrite tasks_accepted, He by done. split.
    + by rewrite length_fmap.
    + apply replace_keeps_ids. by rewrite newTask_id, He.
  - split_and!; [done | done | done |]. intros _.
    destruct (rejects s) eqn:Hrej.
    { unfold addOrUpdateTask. by rewrite Hrej. }
    rewrite tasks_accepted, He by done.
    rewrite length_app. simpl. lia.
Qed.

Lemma submit_label_tells_the_path_witness :
  submitLabel staleEdit = "Update Task"
  ∧ length (tasks (addOrUpdateTask 5 staleEdit)) = length (tasks staleEdit)
  ∧ submitLabel (filling [taskA]) = "Add Task"
  ∧ length (tasks (addOrUpdateTask 5 (filling [taskA]))) = 2.
Proof.
  destruct (submit_label_tells_the_path 5 staleEdit) as (_ & _ & Hupd & _).
  destruct (submit_label_tells_the_path 5 (filling [taskA])) as (_ & _ & _ & Hadd).
  split_and!; [done | by apply Hupd | done | by apply Hadd].
Defined.
